(** * Service Mesh Hub: parameter rendering and the installation-plan engine

    A shallow embedding of [pkg/render/util/params.go] over the data model of
    [api/v1/registry.proto], together with the properties of the
    installation-plan engine that the specification states.

    Layout: the Go runtime the code runs on (machine integers, [strconv],
    [time]), the messages of [registry.proto], [ParamValueToString], the
    engine components, and then the theorems.

    [ParamValueToString] is embedded twice. Module [util] has it on the
    messages as values, where every pointer of the Go structs points to
    something: there the function returns a string. Module [params] has it
    on the Go structs themselves (module [pb]), where a pointer may be nil
    and dereferencing it panics. The two agree on the messages of the first
    kind ([ParamValueToString_refines]). *)

From Stdlib Require Import ZArith String Ascii List Bool Lia.
From stdpp Require Import base gmap strings list.

Local Open Scope string_scope.

(** ** Machine integers

    Go's sized integers are modelled as [Z] together with the wrap-around of
    their conversions written out. *)

Module mach.
Local Open Scope Z_scope.

(** The value of a [w]-bit two's complement integer holding the low [w] bits
    of [x]: what the conversion [intw(x)] yields. *)
Definition wrap_signed (w x : Z) : Z :=
  (x + 2 ^ (w - 1)) mod 2 ^ w - 2 ^ (w - 1).

(** The value of a [w]-bit unsigned integer holding the low [w] bits of [x]. *)
Definition wrap_unsigned (w x : Z) : Z := x mod 2 ^ w.

(** The values of a [w]-bit two's complement integer. *)
Definition in_signed (w x : Z) : Prop := - 2 ^ (w - 1) <= x < 2 ^ (w - 1).

Definition int64_range (x : Z) : Prop := in_signed 64 x.

End mach.

(** ** The runtime

    What the compiled program takes from its target and from the Go standard
    library: the width of [int] (32 or 64 bits, [strconv.IntSize]), the type
    [time.Time] with its [String] method, and [float64] with
    [strconv.FormatFloat]. [time_String] is the method on a [time.Time]
    value; what calling it through a nil [*time.Time] does is in module
    [params]. *)

Class Runtime : Type := {
  IntSize : Z;
  IntSize_cases : IntSize = 32%Z \/ IntSize = 64%Z;
  time_Time : Type;
  time_String : time_Time -> string;
  float64 : Type;
  strconv_FormatFloat : float64 -> ascii -> Z -> Z -> string
}.

(** ** Package strconv: integer formatting *)

Module strconv.
Local Open Scope Z_scope.

(** [digits[d]] for [0 <= d < 10]. *)
Definition digit (d : Z) : ascii := ascii_of_nat (48 + Z.to_nat d).

(** The conversion loop of [formatBits] for base 10: digits are produced from
    the least significant one and written right to left into the buffer
    [[64 + 1]byte], here the accumulator [a]; [fuel] bounds the iterations by
    the buffer's length, which no [uint64] exhausts. *)
Fixpoint formatBits_loop (fuel : nat) (u : Z) (a : string) : string :=
  match fuel with
  | O => String (digit (u mod 10)) a
  | S fuel' =>
      if 10 <=? u
      then formatBits_loop fuel' (u / 10) (String (digit (u mod 10)) a)
      else String (digit u) a
  end.

(** [formatBits(nil, u, 10, neg, false)]: [u] is the [uint64] image of the
    value; when [neg] it is negated in [uint64] arithmetic first, and a minus
    sign is put in front of the digits. *)
Definition formatBits (u : Z) (neg : bool) : string :=
  let u := if neg then mach.wrap_unsigned 64 (- u) else u in
  let s := formatBits_loop 65 u "" in
  if neg then String "-" s else s.

(** [FormatInt(i, 10)] for an [int64] [i]. *)
Definition FormatInt (i : Z) : string :=
  formatBits (mach.wrap_unsigned 64 i) (i <? 0).

(** [Itoa(i) = FormatInt(int64(i), 10)]; widening [int] to [int64] keeps the
    value. *)
Definition Itoa (i : Z) : string := FormatInt i.

(** Reading a decimal numeral back, to state what canonical means. *)
Definition digit_value (c : ascii) : option Z :=
  let n := Z.of_nat (nat_of_ascii c) in
  if (48 <=? n) && (n <=? 57) then Some (n - 48) else None.

Fixpoint digits_value (acc : Z) (s : string) : option Z :=
  match s with
  | EmptyString => Some acc
  | String c s' =>
      match digit_value c with
      | Some d => digits_value (10 * acc + d) s'
      | None => None
      end
  end.

(** The value of an unsigned decimal numeral (at least one digit). *)
Definition numeral_value (s : string) : option Z :=
  match s with
  | EmptyString => None
  | _ => digits_value 0 s
  end.

(** A numeral without redundant leading zero. *)
Definition no_leading_zero (s : string) : Prop :=
  s = "0" \/ exists c s', s = String c s' /\ c <> "0"%char.

(** [s] is the canonical base-10 representation of [v]: a minus sign exactly
    when [v] is negative, followed by the numeral of [|v|] without leading
    zeros. *)
Definition canonical_decimal (v : Z) (s : string) : Prop :=
  exists body,
    s = (if v <? 0 then String "-" body else body) /\
    numeral_value body = Some (Z.abs v) /\
    no_leading_zero body.

(** Reading a signed decimal numeral back: an optional minus sign, then the
    digits. *)
Definition decimal_value (s : string) : option Z :=
  match s with
  | String c body =>
      if Ascii.eqb c "-" then option_map Z.opp (numeral_value body)
      else numeral_value s
  | EmptyString => None
  end.

End strconv.

(** ** Package v1: the messages of registry.proto *)

Module v1.

(** [core.solo.io.ResourceRef] *)
Record ResourceRef := {
  ref_name : string;
  ref_namespace : string
}.

Record SecretRef := {
  secret_ref_ref : option ResourceRef;
  secret_ref_key : string
}.

(** The oneof [type] of [SecretValue]. *)
Inductive isSecretValue_Type :=
  | SecretValue_SecretRef (secret_ref : SecretRef)
  | SecretValue_FilePath (file_path : string)
  | SecretValue_PlainText (plain_text : string).

Record SecretValue := {
  secret_value_type : option isSecretValue_Type
}.

Inductive ParameterType := STRING | FLOAT | BOOL | INT | DATE | SECRET.

Inductive MeshType := ISTIO | LINKERD | AWS_APP_MESH.

Inductive ApplicationType := EXTENSION | DEMO | MESH.

Record AllowedVersions := {
  min_version : string;
  max_version : string
}.

Record MeshRequirement := {
  mesh_type : MeshType;
  versions : option AllowedVersions
}.

Record RequirementSet := {
  mesh_requirement : MeshRequirement
}.

Record GithubRepositoryLocation := {
  github_org : string;
  github_repo : string;
  github_ref : string;
  github_directory : string
}.

Record TgzLocation := {
  tgz_uri : string
}.

(** [ResourceDependency]: its oneof has the single member
    [secret_dependency]. *)
Record ResourceDependency_Secret := {
  dependency_name : string;
  dependency_keys : list string
}.

Record ResourceDependency := {
  secret_dependency : option ResourceDependency_Secret
}.

(** The oneof [step] of [InstallationSteps.Step]. *)
Inductive isStep_Step :=
  | Step_GithubChart (github_chart : GithubRepositoryLocation)
  | Step_HelmArchive (helm_archive : TgzLocation)
  | Step_ManifestsArchive (manifests_archive : TgzLocation).

Record Step := {
  step_name : string;
  step_step : option isStep_Step
}.

Record InstallationSteps := {
  steps : list Step
}.

Section WithRuntime.
Context {R : Runtime}.

(** The oneof [type] of [ParameterValue] as a value: [int_value] is an
    [int64], [float_value] a [double], [date_value] a timestamp held as
    [time.Time] ([gogoproto.stdtime]). This type has the messages in which
    the oneof is unset or holds a member with its content; the Go structs,
    in which the member and the time are reached through pointers that can
    be nil, are in module [pb]. *)
Inductive isParameterValue_Type :=
  | ParameterValue_StringValue (StringValue : string)
  | ParameterValue_IntValue (IntValue : Z)
  | ParameterValue_FloatValue (FloatValue : float64)
  | ParameterValue_BooleanValue (BooleanValue : bool)
  | ParameterValue_DateValue (DateValue : time_Time)
  | ParameterValue_SecretValue (SecretValue : SecretValue).

Record ParameterValue := {
  Type_ : option isParameterValue_Type
}.

(** The generated getter: safe on a nil receiver. *)
Definition GetType (m : option ParameterValue) : option isParameterValue_Type :=
  match m with
  | Some m => Type_ m
  | None => None
  end.

(** [&ParameterValue{Type: t}]: a value whose oneof holds the member [t]. *)
Definition value_of (t : isParameterValue_Type) : option ParameterValue :=
  Some {| Type_ := Some t |}.

(** The message [Parameter] ([Parameter] itself is reserved in Rocq). *)
Record Parameter_ := {
  parameter_name : string;
  parameter_description : string;
  parameter_type : ParameterType;
  parameter_default : option ParameterValue;
  parameter_required : bool;
  parameter_display_name : string
}.

Record LayerOption := {
  option_id : string;
  option_display_name : string;
  option_description : string;
  option_helm_values : string;
  option_parameters : list Parameter_;
  option_resource_dependencies : list ResourceDependency
}.

Record Layer := {
  layer_id : string;
  layer_display_name : string;
  layer_description : string;
  layer_optional : bool;
  layer_options : list LayerOption
}.

Record Flavor := {
  flavor_name : string;
  flavor_description : string;
  flavor_customization_layers : list Layer;
  flavor_requirement_sets : list RequirementSet;
  flavor_parameters : list Parameter_
}.

(** The oneof [installation_spec] of [VersionedApplicationSpec]. *)
Inductive isVersionedApplicationSpec_InstallationSpec :=
  | VersionedApplicationSpec_GithubChart (github_chart : GithubRepositoryLocation)
  | VersionedApplicationSpec_HelmArchive (helm_archive : TgzLocation)
  | VersionedApplicationSpec_ManifestsArchive (manifests_archive : TgzLocation)
  | VersionedApplicationSpec_InstallationSteps (installation_steps : InstallationSteps).

Record VersionedApplicationSpec := {
  version : string;
  date_published : option time_Time;
  installation_spec : option isVersionedApplicationSpec_InstallationSpec;
  values_yaml : string;
  required_labels : gmap string string;
  flavors : list Flavor;
  respect_manifest_namespaces : bool;
  parameters : list Parameter_
}.

Record ApplicationSpec := {
  application_type : ApplicationType;
  application_name : string;
  logo_url : string;
  short_description : string;
  long_description : string;
  documentation_url : string;
  repository_url : string;
  application_creator : string;
  application_provider : string;
  application_maintainer : string;
  date_created : option time_Time;
  application_versions : list VersionedApplicationSpec
}.

End WithRuntime.

Arguments ApplicationSpec {R}.
Arguments isParameterValue_Type {R}.
Arguments ParameterValue {R}.
Arguments Parameter_ {R}.
Arguments LayerOption {R}.
Arguments Layer {R}.
Arguments Flavor {R}.
Arguments VersionedApplicationSpec {R}.

End v1.

(** ** Package util: pkg/render/util/params.go *)

Module util.
Section WithRuntime.
Context {R : Runtime}.

(** The conversion [int(x)] of an [int64]: the low [IntSize] bits. *)
Definition int (x : Z) : Z := mach.wrap_signed IntSize x.

(** [ParamValueToString] on a message given as a value. *)
Definition ParamValueToString (value : option v1.ParameterValue) : string :=
  match v1.GetType value with
  | Some (v1.ParameterValue_BooleanValue b) =>
      if b then "true" else "false"
  | Some (v1.ParameterValue_DateValue t) =>
      time_String t
  | Some (v1.ParameterValue_FloatValue f) =>
      strconv_FormatFloat f "f"%char (-1) 64
  | Some (v1.ParameterValue_IntValue i) =>
      strconv.Itoa (int i)
  | Some (v1.ParameterValue_SecretValue _) =>
      (* TODO not yet supported *)
      ""
  | Some (v1.ParameterValue_StringValue s) =>
      s
  | None => ""
  end.

(** The values whose rendering is the empty string, branch by branch. *)
Definition empty_rendering (value : option v1.ParameterValue) : Prop :=
  match v1.GetType value with
  | Some (v1.ParameterValue_BooleanValue _) => False
  | Some (v1.ParameterValue_DateValue t) => time_String t = ""
  | Some (v1.ParameterValue_FloatValue f) => strconv_FormatFloat f "f"%char (-1) 64 = ""
  | Some (v1.ParameterValue_IntValue _) => False
  | Some (v1.ParameterValue_SecretValue _) => True
  | Some (v1.ParameterValue_StringValue s) => s = ""
  | None => True
  end.

End WithRuntime.
End util.

(** ** The generated Go structs of ParameterValue

    [params.go] works on the Go types that the protocol buffer compiler
    generates from the message [ParameterValue] of [registry.proto]; the
    generated file is not part of the sources, so the structs are written
    down here after the rules of the generator. For a oneof it generates an
    interface ([isParameterValue_Type]) and one wrapper struct per member,
    with the member as its only field; the field [Type] of the message holds
    nil or a pointer to a wrapper. With [gogoproto.stdtime] the date member
    is a [*time.Time], and the secret member, a message, is a
    [*SecretValue]. A pointer is modelled as an [option]: [None] is nil. *)

Module pb.
Section WithRuntime.
Context {R : Runtime}.

Record ParameterValue_StringValue := { StringValue : string }.
Record ParameterValue_IntValue := { IntValue : Z }.
Record ParameterValue_FloatValue := { FloatValue : float64 }.
Record ParameterValue_BooleanValue := { BooleanValue : bool }.
Record ParameterValue_DateValue := { DateValue : option time_Time }.
Record ParameterValue_SecretValue := { SecretValue : option v1.SecretValue }.

(** A non-nil value of the interface [isParameterValue_Type]: its dynamic
    type is the pointer type of one of the wrappers, and the pointer it
    holds may be nil. *)
Inductive isParameterValue_Type :=
  | Ptr_StringValue (p : option ParameterValue_StringValue)
  | Ptr_IntValue (p : option ParameterValue_IntValue)
  | Ptr_FloatValue (p : option ParameterValue_FloatValue)
  | Ptr_BooleanValue (p : option ParameterValue_BooleanValue)
  | Ptr_DateValue (p : option ParameterValue_DateValue)
  | Ptr_SecretValue (p : option ParameterValue_SecretValue).

(** The struct [ParameterValue]; [None] in [Type_] is the nil interface. *)
Record ParameterValue := {
  Type_ : option isParameterValue_Type
}.

(** The generated getter: [if m != nil { return m.Type }; return nil]. *)
Definition GetType (m : option ParameterValue) : option isParameterValue_Type :=
  match m with
  | Some m => Type_ m
  | None => None
  end.

(** The Go struct of a message given as a value: every pointer is set. *)
Definition of_member (t : v1.isParameterValue_Type) : isParameterValue_Type :=
  match t with
  | v1.ParameterValue_StringValue s => Ptr_StringValue (Some {| StringValue := s |})
  | v1.ParameterValue_IntValue i => Ptr_IntValue (Some {| IntValue := i |})
  | v1.ParameterValue_FloatValue f => Ptr_FloatValue (Some {| FloatValue := f |})
  | v1.ParameterValue_BooleanValue b => Ptr_BooleanValue (Some {| BooleanValue := b |})
  | v1.ParameterValue_DateValue d => Ptr_DateValue (Some {| DateValue := Some d |})
  | v1.ParameterValue_SecretValue s => Ptr_SecretValue (Some {| SecretValue := Some s |})
  end.

Definition of_value (value : option v1.ParameterValue) : option ParameterValue :=
  match value with
  | Some m => Some {| Type_ := option_map of_member (v1.Type_ m) |}
  | None => None
  end.

(** The members on which [ParamValueToString] goes through a nil pointer:
    a nil wrapper of a member other than the secret, and a date wrapper
    whose time is nil. *)
Definition nil_member (t : isParameterValue_Type) : bool :=
  match t with
  | Ptr_StringValue None => true
  | Ptr_IntValue None => true
  | Ptr_FloatValue None => true
  | Ptr_BooleanValue None => true
  | Ptr_DateValue None => true
  | Ptr_DateValue (Some w) =>
      match DateValue w with
      | None => true
      | Some _ => false
      end
  | _ => false
  end.

(** The message a struct stands for, when none of the pointers that
    [ParamValueToString] reads is nil. A secret member that is nil stands for
    the secret whose own oneof is unset, as the generated getters have it. *)
Definition to_member (t : isParameterValue_Type) : option v1.isParameterValue_Type :=
  match t with
  | Ptr_StringValue (Some w) => Some (v1.ParameterValue_StringValue (StringValue w))
  | Ptr_IntValue (Some w) => Some (v1.ParameterValue_IntValue (IntValue w))
  | Ptr_FloatValue (Some w) => Some (v1.ParameterValue_FloatValue (FloatValue w))
  | Ptr_BooleanValue (Some w) => Some (v1.ParameterValue_BooleanValue (BooleanValue w))
  | Ptr_DateValue (Some w) => option_map v1.ParameterValue_DateValue (DateValue w)
  | Ptr_SecretValue (Some w) =>
      Some (v1.ParameterValue_SecretValue
              (default {| v1.secret_value_type := None |} (SecretValue w)))
  | Ptr_SecretValue None =>
      Some (v1.ParameterValue_SecretValue {| v1.secret_value_type := None |})
  | _ => None
  end.

Definition to_value (value : option ParameterValue) : option (option v1.ParameterValue) :=
  match value with
  | Some m =>
      match Type_ m with
      | Some t => option_map v1.value_of (to_member t)
      | None => Some (Some {| v1.Type_ := None |})
      end
  | None => Some None
  end.

End WithRuntime.

Arguments ParameterValue_FloatValue {R}.
Arguments ParameterValue_DateValue {R}.
Arguments isParameterValue_Type {R}.
Arguments ParameterValue {R}.

End pb.

(** ** pkg/render/util/params.go on the Go structs *)

Module params.

(** What a call does: it returns a string, or it panics with a nil pointer
    dereference. *)
Inductive Outcome :=
  | Returned (s : string)
  | Panicked.

(** Reading through a pointer: [p.f] and a method call with a value
    receiver on [p] panic when [p] is nil. *)
Definition deref {A : Type} (p : option A) (k : A -> Outcome) : Outcome :=
  match p with
  | Some a => k a
  | None => Panicked
  end.

Section WithRuntime.
Context {R : Runtime}.

(** The type switch binds [t] to the pointer held by the interface. Each
    branch but the secret's reads a field of [*t]; the date branch then
    calls [String], whose receiver is a [time.Time] value, on the
    [*time.Time] it has read. *)
Definition ParamValueToString (value : option pb.ParameterValue) : Outcome :=
  match pb.GetType value with
  | Some (pb.Ptr_BooleanValue t) =>
      deref t (fun t =>
        if pb.BooleanValue t then Returned "true" else Returned "false")
  | Some (pb.Ptr_DateValue t) =>
      deref t (fun t => deref (pb.DateValue t) (fun d => Returned (time_String d)))
  | Some (pb.Ptr_FloatValue t) =>
      deref t (fun t => Returned (strconv_FormatFloat (pb.FloatValue t) "f"%char (-1) 64))
  | Some (pb.Ptr_IntValue t) =>
      deref t (fun t => Returned (strconv.Itoa (util.int (pb.IntValue t))))
  | Some (pb.Ptr_SecretValue _) =>
      (* TODO not yet supported *)
      Returned ""
  | Some (pb.Ptr_StringValue t) =>
      deref t (fun t => Returned (pb.StringValue t))
  | None => Returned ""
  end.

End WithRuntime.
End params.

(** ** A reference runtime

    Two concrete runtimes on which the definitions can be evaluated: a 64-bit
    target and a 32-bit one. Times are UTC instants (what a timestamp decoded
    with [gogoproto.stdtime] is) and a [float64] is its IEEE 754 bit pattern
    ([math.Float64bits]). *)

Module refrt.
Local Open Scope Z_scope.

(** *** time.Time in UTC *)

Record Time := {
  unixSec : Z;   (* seconds since 1970-01-01T00:00:00Z *)
  nsec : Z       (* nanoseconds within the second, 0 .. 999999999 *)
}.

Fixpoint zeros (n : nat) : string :=
  match n with
  | O => ""
  | S n' => String "0" (zeros n')
  end.

(** [appendInt(b, x, width)]: zero-padded to [width] digits, the sign first. *)
Definition appendInt (x : Z) (width : nat) : string :=
  let s := strconv.formatBits_loop 65 (Z.abs x) "" in
  (if x <? 0 then "-" else "") ++ zeros (width - String.length s) ++ s.

(** Year, month and day of the proleptic Gregorian calendar for a day count
    since the Unix epoch. *)
Definition civil (days : Z) : Z * Z * Z :=
  let z := days + 719468 in
  let era := z / 146097 in
  let doe := z - era * 146097 in
  let yoe := (doe - doe / 1460 + doe / 36524 - doe / 146096) / 365 in
  let doy := doe - (365 * yoe + yoe / 4 - yoe / 100) in
  let mp := (5 * doy + 2) / 153 in
  let d := doy - (153 * mp + 2) / 5 + 1 in
  let m := if mp <? 10 then mp + 3 else mp - 9 in
  let y := yoe + era * 400 + (if m <=? 2 then 1 else 0) in
  (y, m, d).

(** Drops the zeros at the end of a digit string. *)
Fixpoint trim_zeros (s : string) : string :=
  match s with
  | EmptyString => EmptyString
  | String c s' =>
      match trim_zeros s' with
      | EmptyString => if Ascii.eqb c "0" then EmptyString else String c EmptyString
      | t => String c t
      end
  end.

(** The layout element [.999999999]: the fraction without trailing zeros,
    nothing when it is zero. *)
Definition fraction (ns : Z) : string :=
  match trim_zeros (appendInt ns 9) with
  | EmptyString => ""
  | t => String "." t
  end.

(** [Time.String()] on the times this record stands for: a time in the
    location UTC, without monotonic clock reading, of a year from 0 to 9999,
    printed in the layout [2006-01-02 15:04:05.999999999 -0700 MST]. A time
    in another location is printed with that location's offset and
    abbreviation, one with a monotonic clock reading has [m=] and the reading
    appended, and Go's arithmetic on the seconds wraps far outside these
    years: none of that is modelled, and no theorem below but the example
    [ParamValueToString_date_example] relies on this definition. *)
Definition Time_String (t : Time) : string :=
  let '(y, m, d) := civil (unixSec t / 86400) in
  let sod := unixSec t mod 86400 in
  appendInt y 4 ++ "-" ++ appendInt m 2 ++ "-" ++ appendInt d 2 ++ " " ++
  appendInt (sod / 3600) 2 ++ ":" ++ appendInt (sod / 60 mod 60) 2 ++ ":" ++
  appendInt (sod mod 60) 2 ++ fraction (nsec t) ++ " +0000 UTC".

(** *** strconv.FormatFloat, format 'f' with the shortest precision *)

Definition mantbits : Z := 52.
Definition expbits : Z := 11.
Definition bias : Z := -1023.

(** Compares the decimal [c * 10^k] with the binary [n * 2^e2] after bringing
    both to a common denominator. *)
Definition binary_side (k e2 n : Z) : Z := n * 2 ^ (Z.max e2 0) * 10 ^ (Z.max (- k) 0).
Definition decimal_side (k e2 c : Z) : Z := c * 2 ^ (Z.max (- e2) 0) * 10 ^ (Z.max k 0).

(** The multiples [c * 10^k] inside the rounding interval [[lo, hi] * 2^e2]
    (end points included when [incl]), as the range [c_lo .. c_hi]. *)
Definition candidates (k e2 lo hi : Z) (incl : bool) : Z * Z :=
  let unit := decimal_side k e2 1 in
  let l := binary_side k e2 lo in
  let h := binary_side k e2 hi in
  let c_lo := if incl then (l + unit - 1) / unit else l / unit + 1 in
  let c_hi := if incl then h / unit else (h - 1) / unit in
  (c_lo, c_hi).

(** The multiple of [10^k] nearest to [x * 2^e2], ties to even. *)
Definition nearest (k e2 x : Z) : Z :=
  let unit := decimal_side k e2 1 in
  let v := binary_side k e2 x in
  let q := v / unit in
  let r := v mod unit in
  if 2 * r <? unit then q
  else if unit <? 2 * r then q + 1
  else if Z.even q then q else q + 1.

(** Searches downwards from [k] for the largest power of ten with a multiple
    in the rounding interval, and returns that multiple closest to the value
    together with the power. *)
Fixpoint shortest_search (fuel : nat) (k e2 lo x hi : Z) (incl : bool) : Z * Z :=
  let '(c_lo, c_hi) := candidates k e2 lo hi incl in
  if c_lo <=? c_hi then (Z.max c_lo (Z.min c_hi (nearest k e2 x)), k)
  else
    match fuel with
    | O => (x * 2 ^ (Z.max e2 0) * 5 ^ (Z.max (- e2) 0), Z.min e2 0)
    | S fuel' => shortest_search fuel' (k - 1) e2 lo x hi incl
    end.

(** The shortest decimal [n * 10^k] that rounds to [mant * 2^exp]. *)
Definition shortest (mant exp : Z) : Z * Z :=
  let border := (mant =? 2 ^ mantbits) && negb (exp =? bias + 1 - mantbits) in
  let lo := if border then 4 * mant - 1 else 4 * mant - 2 in
  let k0 := (Z.log2 mant + exp + 1) * 30103 / 100000 + 2 in
  shortest_search 30 k0 (exp - 2) lo (4 * mant) (4 * mant + 2) (Z.even mant).

(** [%f] of the decimal [n * 10^k] with just the digits it has. *)
Definition fmtF (n k : Z) : string :=
  if 0 <=? k then appendInt n 1 ++ zeros (Z.to_nat k)
  else
    appendInt (n / 10 ^ (- k)) 1 ++ "." ++ appendInt (n mod 10 ^ (- k)) (Z.to_nat (- k)).

(** [FormatFloat(f, 'f', -1, 64)] on the bit pattern of [f]. *)
Definition FormatFloat_f (bits : Z) : string :=
  let neg := negb (Z.shiftr bits (expbits + mantbits) =? 0) in
  let exp := Z.land (Z.shiftr bits mantbits) (Z.shiftl 1 expbits - 1) in
  let mant := Z.land bits (Z.shiftl 1 mantbits - 1) in
  if exp =? Z.shiftl 1 expbits - 1 then
    if negb (mant =? 0) then "NaN" else if neg then "-Inf" else "+Inf"
  else
    let '(exp, mant) :=
      if exp =? 0 then (exp + 1, mant) else (exp, Z.lor mant (Z.shiftl 1 mantbits)) in
    let exp := exp + bias in
    let digits :=
      if mant =? 0 then "0"
      else let '(n, k) := shortest mant (exp - mantbits) in fmtF n k in
    if neg then String "-" digits else digits.

(** Only the mode the program uses is modelled; any other one is rendered
    the way Go renders an unknown format verb. *)
Definition FormatFloat (bits : Z) (fmt : ascii) (prec bitSize : Z) : string :=
  if Ascii.eqb fmt "f" && (prec <? 0) && (bitSize =? 64) then FormatFloat_f bits
  else String "%" (String fmt "").

Definition go_amd64 : Runtime := {|
  IntSize := 64;
  IntSize_cases := or_intror eq_refl;
  time_Time := Time;
  time_String := Time_String;
  float64 := Z;
  strconv_FormatFloat := FormatFloat
|}.

Definition go_386 : Runtime := {|
  IntSize := 32;
  IntSize_cases := or_introl eq_refl;
  time_Time := Time;
  time_String := Time_String;
  float64 := Z;
  strconv_FormatFloat := FormatFloat
|}.

End refrt.

(** ** The engine's components

    The code of the components below is not part of the sources at hand (only
    the schema they work on and a test that calls the renderer are); each is
    modelled from the specification. *)

Module engine.
Local Open Scope list_scope.

(** Modelled from the spec: the error kinds of section 7. *)
Inductive Error :=
  | VersionNotFound (version : string)
  | FlavorNotFound (flavor : string)
  | FlavorIncompatible (flavor : string) (unmet : list v1.RequirementSet)
  | LayerSelectionRequired (layer : string)
  | MissingDependency (layer option_ : string) (dependency : v1.ResourceDependency)
  | MissingRequiredParameter (parameter : string)
  | SecretNotFound (secret key : string)
  | SecretSourceUnavailable (path : string)
  | TemplatingFailed (step message : string)
  | NoInstallSourceDefined.

(** *** Secret Resolver (4.2) *)

Section SecretResolver.
(** The cluster query [getSecret(namespace, name)] and the local file
    system. *)
Variable getSecret : string -> string -> option (gmap string string).
Variable readFile : string -> option string.

(** The name of the referenced cluster secret. *)
Definition ref_name_of (r : v1.SecretRef) : string :=
  match v1.secret_ref_ref r with
  | Some ref => v1.ref_name ref
  | None => ""
  end.

(** Modelled from the spec: the Secret Resolver, which turns a secret
    variant into a literal string. A cluster secret is looked up in the target
    namespace only, and both the secret and the key must exist; a file is read
    whole; plain text is returned unchanged. *)
Definition resolve_secret (targetNamespace : string) (s : v1.isSecretValue_Type)
  : Error + string :=
  match s with
  | v1.SecretValue_SecretRef r =>
      match getSecret targetNamespace (ref_name_of r) with
      | None => inl (SecretNotFound (ref_name_of r) (v1.secret_ref_key r))
      | Some data =>
          match data !! v1.secret_ref_key r with
          | None => inl (SecretNotFound (ref_name_of r) (v1.secret_ref_key r))
          | Some literal => inr literal
          end
      end
  | v1.SecretValue_FilePath path =>
      match readFile path with
      | None => inl (SecretSourceUnavailable path)
      | Some contents => inr contents
      end
  | v1.SecretValue_PlainText text => inr text
  end.

End SecretResolver.

(** The raw forms of a secret value: the strings that name or hold it. *)
Definition raw_forms (s : v1.SecretValue) : list string :=
  match v1.secret_value_type s with
  | Some (v1.SecretValue_SecretRef r) =>
      match v1.secret_ref_ref r with
      | Some ref => [v1.ref_name ref; v1.ref_namespace ref; v1.secret_ref_key r]
      | None => [v1.secret_ref_key r]
      end
  | Some (v1.SecretValue_FilePath path) => [path]
  | Some (v1.SecretValue_PlainText text) => [text]
  | None => []
  end.

(** [sub] occurs in [s]. *)
Definition embeds (s sub : string) : Prop :=
  exists before after, s = (before ++ sub ++ after)%string.

(** *** Compatibility Validator (4.3) *)

(** Modelled from the spec: the description of a target runtime instance,
    mesh type and version. *)
Record TargetRuntime := {
  runtime_type : v1.MeshType;
  runtime_version : string
}.

(** Modelled from the spec: a version under the semantic ordering, read as
    Semantic Versioning 2.0.0: the core [major.minor.patch], then the
    identifiers of an optional pre-release; build metadata does not take part
    in the ordering. *)
Inductive Identifier :=
  | Numeric (n : Z)
  | Alphanumeric (s : string).

Record Semver := {
  major : Z;
  minor : Z;
  patch : Z;
  prerelease : list Identifier
}.

(** The fields of [s] between the separators [sep]. *)
Fixpoint split (sep : ascii) (s : string) : list string :=
  match s with
  | EmptyString => [EmptyString]
  | String c s' =>
      if Ascii.eqb c sep then EmptyString :: split sep s'
      else
        match split sep s' with
        | [] => [String c EmptyString]
        | h :: t => String c h :: t
        end
  end.

(** [s] cut at the first separator [sep]: what stands before it, and what
    stands after it when there is one. *)
Fixpoint cut (sep : ascii) (s : string) : string * option string :=
  match s with
  | EmptyString => (EmptyString, None)
  | String c s' =>
      if Ascii.eqb c sep then (EmptyString, Some s')
      else let '(before, after) := cut sep s' in (String c before, after)
  end.

Fixpoint forallb_string (p : ascii -> bool) (s : string) : bool :=
  match s with
  | EmptyString => true
  | String c s' => p c && forallb_string p s'
  end.

Definition is_digit (c : ascii) : bool :=
  match strconv.digit_value c with
  | Some _ => true
  | None => false
  end.

Definition is_letter (c : ascii) : bool :=
  let n := nat_of_ascii c in
  ((65 <=? n)%nat && (n <=? 90)%nat) || ((97 <=? n)%nat && (n <=? 122)%nat).

(** The characters of an identifier: [0-9A-Za-z-]. *)
Definition is_identifier_char (c : ascii) : bool :=
  is_digit c || is_letter c || Ascii.eqb c "-".

(** The characters of a release, [0-9.], and of a version without build
    metadata, [0-9A-Za-z-.]. *)
Definition digit_or_dot (c : ascii) : bool := is_digit c || Ascii.eqb c ".".

Definition version_char (c : ascii) : bool := is_identifier_char c || Ascii.eqb c ".".

(** A numeric identifier: digits without a leading zero. *)
Definition numeric_identifier (s : string) : option Z :=
  match s with
  | String c (String _ _) => if Ascii.eqb c "0" then None else strconv.numeral_value s
  | _ => strconv.numeral_value s
  end.

(** A pre-release identifier: numeric when it consists of digits only. *)
Definition identifier (s : string) : option Identifier :=
  if forallb_string is_digit s then option_map Numeric (numeric_identifier s)
  else if forallb_string is_identifier_char s then Some (Alphanumeric s)
  else None.

Fixpoint identifiers (fields : list string) : option (list Identifier) :=
  match fields with
  | [] => Some []
  | f :: fields' =>
      match identifier f, identifiers fields' with
      | Some i, Some l => Some (i :: l)
      | _, _ => None
      end
  end.

(** Build metadata: non-empty identifiers separated by dots. *)
Definition valid_build (b : string) : bool :=
  forallb (fun f => negb (String.eqb f "") && forallb_string is_identifier_char f)
          (split "." b).

(** Modelled from the spec: reading a version string,
    [major.minor.patch[-prerelease][+build]]. *)
Definition parse_version (s : string) : option Semver :=
  let '(rest, build) := cut "+" s in
  let '(core, pre) := cut "-" rest in
  if match build with Some b => valid_build b | None => true end then
    match split "." core,
          match pre with Some p => identifiers (split "." p) | None => Some [] end with
    | [a; b; c], Some ids =>
        match numeric_identifier a, numeric_identifier b, numeric_identifier c with
        | Some x, Some y, Some z =>
            Some {| major := x; minor := y; patch := z; prerelease := ids |}
        | _, _, _ => None
        end
    | _, _ => None
    end
  else None.

(** Numeric identifiers compare as numbers and precede alphanumeric ones,
    which compare in ASCII order. *)
Definition identifier_compare (a b : Identifier) : comparison :=
  match a, b with
  | Numeric x, Numeric y => Z.compare x y
  | Numeric _, Alphanumeric _ => Lt
  | Alphanumeric _, Numeric _ => Gt
  | Alphanumeric s, Alphanumeric t => String.compare s t
  end.

(** Identifier by identifier from the left; when all of the shorter list
    agree, the shorter one precedes. *)
Fixpoint identifiers_compare (a b : list Identifier) : comparison :=
  match a, b with
  | [], [] => Eq
  | [], _ :: _ => Lt
  | _ :: _, [] => Gt
  | x :: a', y :: b' =>
      match identifier_compare x y with
      | Eq => identifiers_compare a' b'
      | c => c
      end
  end.

(** A pre-release precedes the release with the same core. *)
Definition prerelease_compare (a b : list Identifier) : comparison :=
  match a, b with
  | [], [] => Eq
  | [], _ :: _ => Gt
  | _ :: _, [] => Lt
  | _ :: _, _ :: _ => identifiers_compare a b
  end.

(** Modelled from the spec: semantic ordering compares major, minor and patch
    as numbers, in this order, and then the pre-releases. *)
Definition semver_compare (a b : Semver) : comparison :=
  match Z.compare (major a) (major b) with
  | Eq =>
      match Z.compare (minor a) (minor b) with
      | Eq =>
          match Z.compare (patch a) (patch b) with
          | Eq => prerelease_compare (prerelease a) (prerelease b)
          | c => c
          end
      | c => c
      end
  | c => c
  end.

Definition semver_leb (a b : Semver) : bool :=
  match semver_compare a b with
  | Gt => false
  | _ => true
  end.

(** Modelled from the spec: the comparison of two version strings; a string
    that is no version compares with nothing. *)
Definition version_leb (a b : string) : bool :=
  match parse_version a, parse_version b with
  | Some x, Some y => semver_leb x y
  | _, _ => false
  end.

Definition is_empty (s : string) : bool :=
  match s with
  | EmptyString => true
  | _ => false
  end.

(** Modelled from the spec: the version lies within [[minVersion, maxVersion]]
    inclusive, an unset bound being open on its side; without a range any
    version is allowed. *)
Definition versions_allow (range : option v1.AllowedVersions) (v : string) : bool :=
  match range with
  | None => true
  | Some r =>
      (is_empty (v1.min_version r) || version_leb (v1.min_version r) v) &&
      (is_empty (v1.max_version r) || version_leb v (v1.max_version r))
  end.

Definition MeshType_eqb (a b : v1.MeshType) : bool :=
  match a, b with
  | v1.ISTIO, v1.ISTIO | v1.LINKERD, v1.LINKERD | v1.AWS_APP_MESH, v1.AWS_APP_MESH => true
  | _, _ => false
  end.

(** Modelled from the spec: a requirement set is satisfied iff the mesh type
    equals the target's and the target's version is within the range. *)
Definition requirement_set_satisfied (rs : v1.RequirementSet) (t : TargetRuntime) : bool :=
  let mr := v1.mesh_requirement rs in
  MeshType_eqb (v1.mesh_type mr) (runtime_type t) &&
  versions_allow (v1.versions mr) (runtime_version t).

(** Modelled from the spec: a flavor is applicable iff at least one of its
    requirement sets is satisfied; a flavor with zero requirement sets is
    treated as universally applicable. *)
Definition flavor_applicable {R : Runtime} (f : v1.Flavor) (t : TargetRuntime) : bool :=
  match v1.flavor_requirement_sets f with
  | [] => true
  | sets => existsb (fun rs => requirement_set_satisfied rs t) sets
  end.

(** The same conditions in the words of the spec, to compare the decision
    procedure with. Precedence, as Semantic Versioning states it. *)
Definition identifier_lt (a b : Identifier) : Prop :=
  match a, b with
  | Numeric x, Numeric y => (x < y)%Z
  | Numeric _, Alphanumeric _ => True
  | Alphanumeric _, Numeric _ => False
  | Alphanumeric s, Alphanumeric t => String.compare s t = Lt
  end.

Fixpoint identifiers_lt (a b : list Identifier) : Prop :=
  match a, b with
  | [], _ :: _ => True
  | x :: a', y :: b' => identifier_lt x y \/ (x = y /\ identifiers_lt a' b')
  | _, [] => False
  end.

Definition prerelease_lt (a b : list Identifier) : Prop :=
  match a, b with
  | _ :: _, [] => True
  | _ :: _, _ :: _ => identifiers_lt a b
  | [], _ => False
  end.

Definition semver_lt (a b : Semver) : Prop :=
  (major a < major b \/
   (major a = major b /\
    (minor a < minor b \/
     (minor a = minor b /\
      (patch a < patch b \/
       (patch a = patch b /\ prerelease_lt (prerelease a) (prerelease b)))))))%Z.

Definition semver_le (a b : Semver) : Prop := a = b \/ semver_lt a b.

(** The decimal numeral of a natural number, and the version string of a
    release. *)
Definition decimal (n : N) : string :=
  strconv.formatBits_loop (Z.to_nat (Z.log2 (Z.of_N n))) (Z.of_N n) "".

Definition release_string (x y z : N) : string :=
  (decimal x ++ "." ++ decimal y ++ "." ++ decimal z)%string.

Definition release (x y z : N) : Semver :=
  {| major := Z.of_N x; minor := Z.of_N y; patch := Z.of_N z; prerelease := [] |}.

(** The version string of a semantic version, and the semantic versions that
    have one: numbers are not negative, and an alphanumeric identifier is
    made of the characters [0-9A-Za-z-], not of digits only. *)
Definition identifier_string (i : Identifier) : string :=
  match i with
  | Numeric n => decimal (Z.to_N n)
  | Alphanumeric s => s
  end.

Fixpoint dotted (fields : list string) : string :=
  match fields with
  | [] => ""
  | [f] => f
  | f :: fields' => (f ++ String "." (dotted fields'))%string
  end.

Definition version_string (v : Semver) : string :=
  (release_string (Z.to_N (major v)) (Z.to_N (minor v)) (Z.to_N (patch v)) ++
   match prerelease v with
   | [] => ""
   | ids => String "-" (dotted (map identifier_string ids))
   end)%string.

Definition valid_identifier (i : Identifier) : bool :=
  match i with
  | Numeric n => (0 <=? n)%Z
  | Alphanumeric s =>
      negb (forallb_string is_digit s) && forallb_string is_identifier_char s
  end.

Definition valid_semver (v : Semver) : bool :=
  (0 <=? major v)%Z && (0 <=? minor v)%Z && (0 <=? patch v)%Z &&
  forallb valid_identifier (prerelease v).

Definition version_le (a b : string) : Prop :=
  exists x y, parse_version a = Some x /\ parse_version b = Some y /\ semver_le x y.

Definition version_within (range : option v1.AllowedVersions) (v : string) : Prop :=
  match range with
  | None => True
  | Some r =>
      (v1.min_version r = "" \/ version_le (v1.min_version r) v) /\
      (v1.max_version r = "" \/ version_le v (v1.max_version r))
  end.

(** *** Resources, values and the Templating Engine (6) *)

(** Modelled from the spec: a structured resource object as the Templating
    Engine returns it (kind, namespace, name, labels, body). *)
Record Resource := {
  resource_kind : string;
  resource_namespace : string;
  resource_name : string;
  resource_labels : gmap string string;
  resource_body : string
}.

(** Modelled from the spec: the value set handed to the Templating Engine.
    Precedence grows from the base values over the layers' overrides, in
    declaration order, to the caller's parameter overrides. *)
Record Values := {
  base_values : string;
  layer_values : list string;
  parameter_values : gmap string string
}.

(** A single install source: chart directory, chart archive or manifest
    archive. *)
Abbreviation InstallSource := v1.isStep_Step.

(** Modelled from the spec: the Templating Engine calls made so far, oldest
    first. *)
Abbreviation Log := (list (InstallSource * Values)).

(** Modelled from the spec: a render call either fails with its errors or
    yields a value; it threads the log of Templating Engine calls. *)
Definition M (A : Type) : Type := Log -> (list Error + A) * Log.

Definition ret {A : Type} (a : A) : M A := fun log => (inr a, log).

Definition fail {A : Type} (errors : list Error) : M A := fun log => (inl errors, log).

Definition bind {A B : Type} (m : M A) (k : A -> M B) : M B :=
  fun log =>
    match m log with
    | (inl errors, log') => (inl errors, log')
    | (inr a, log') => k a log'
    end.

Notation "'do' x <- m ; k" := (bind m (fun x => k))
  (at level 10, x name, m at level 100, k at level 200).

Section Engine.
Context {R : Runtime}.

(** The external collaborators: the Templating Engine
    [render(installSource, valueMap)], which returns manifests or a rendering
    error message; the cluster query [getSecret(namespace, name)]; the
    manifest fragments a layer option contributes. *)
Variable render : InstallSource -> Values -> string + list Resource.
Variable getSecret : string -> string -> option (gmap string string).
Variable layer_manifests : v1.Layer -> v1.LayerOption -> list Resource.

(** The key of the label that identifies the originating step. *)
Variable step_label : string.

(** *** Layer Composer (4.4) *)

(** Modelled from the spec: the caller's choice for a layer, from the map of
    layer id to chosen option id. A layer that the map does not mention, or
    for which it names none of the declared options, has no option
    selected. *)
Definition chosen_option (choices : gmap string string) (l : v1.Layer)
  : option v1.LayerOption :=
  match choices !! v1.layer_id l with
  | None => None
  | Some oid => find (fun o => String.eqb (v1.option_id o) oid) (v1.layer_options l)
  end.

(** Modelled from the spec: a secret dependency is met when the named secret
    exists in the install namespace with all required keys present. *)
Definition dependency_met (ns : string) (d : v1.ResourceDependency) : bool :=
  match v1.secret_dependency d with
  | None => true
  | Some sd =>
      match getSecret ns (v1.dependency_name sd) with
      | None => false
      | Some data =>
          forallb (fun k => match data !! k with Some _ => true | None => false end)
                  (v1.dependency_keys sd)
      end
  end.

(** Modelled from the spec: what the layers contribute, namely the
    validation errors, the value overrides and the manifest fragments, each in
    declaration order. *)
Record Composition := {
  composed_errors : list Error;
  composed_values : list string;
  composed_manifests : list Resource
}.

Definition nothing : Composition :=
  {| composed_errors := []; composed_values := []; composed_manifests := [] |}.

Definition merge (a b : Composition) : Composition :=
  {| composed_errors := composed_errors a ++ composed_errors b;
     composed_values := composed_values a ++ composed_values b;
     composed_manifests := composed_manifests a ++ composed_manifests b |}.

(** Modelled from the spec: one layer of the Layer Composer. Without a
    selection an optional layer contributes nothing and a non-optional one is
    a [LayerSelectionRequired] error. With a selection the option's resource
    dependencies are checked before its values are merged; a failing
    dependency aborts the composition of this layer. *)
Definition compose_layer (ns : string) (choices : gmap string string) (l : v1.Layer)
  : Composition :=
  match chosen_option choices l with
  | None =>
      if v1.layer_optional l then nothing
      else {| composed_errors := [LayerSelectionRequired (v1.layer_id l)];
              composed_values := [];
              composed_manifests := [] |}
  | Some o =>
      match List.filter (fun d => negb (dependency_met ns d))
                        (v1.option_resource_dependencies o) with
      | [] =>
          {| composed_errors := [];
             composed_values := [v1.option_helm_values o];
             composed_manifests := layer_manifests l o |}
      | unmet =>
          {| composed_errors :=
               map (MissingDependency (v1.layer_id l) (v1.option_id o)) unmet;
             composed_values := [];
             composed_manifests := [] |}
      end
  end.

(** Modelled from the spec: the layers are applied in declaration order and
    the errors of all of them are accumulated. *)
Fixpoint compose_layers (ns : string) (choices : gmap string string) (ls : list v1.Layer)
  : Composition :=
  match ls with
  | [] => nothing
  | l :: ls' => merge (compose_layer ns choices l) (compose_layers ns choices ls')
  end.

(** *** Step Orchestrator (4.5) *)

(** Modelled from the spec: one call of the Templating Engine, recorded in
    the log; a rendering error names the failing step. *)
Definition call_engine (step : string) (src : InstallSource) (values : Values)
  : M (list Resource) :=
  fun log =>
    (match render src values with
     | inl message => inl [TemplatingFailed step message]
     | inr manifests => inr manifests
     end,
     log ++ [(src, values)]).

(** Modelled from the spec: a resource labeled with the step that produced
    it. *)
Definition label_with_step (step : string) (r : Resource) : Resource :=
  {| resource_kind := resource_kind r;
     resource_namespace := resource_namespace r;
     resource_name := resource_name r;
     resource_labels := <[step_label := step]> (resource_labels r);
     resource_body := resource_body r |}.

(** Modelled from the spec: one step, rendered with the composed values and
    then labeled. *)
Definition render_step (values : Values) (s : v1.Step) : M (list Resource) :=
  match v1.step_step s with
  | None => fail [NoInstallSourceDefined]
  | Some src =>
      do manifests <- call_engine (v1.step_name s) src values;
      ret (map (label_with_step (v1.step_name s)) manifests)
  end.

(** Modelled from the spec: the steps in array order; a failure of one step is
    fatal and no partial batch is returned. *)
Fixpoint render_steps (values : Values) (ss : list v1.Step) (batch : list Resource)
  : M (list Resource) :=
  match ss with
  | [] => ret batch
  | s :: ss' =>
      do manifests <- render_step values s;
      render_steps values ss' (batch ++ manifests)
  end.

(** Modelled from the spec: a single install source is one implicit unnamed
    step. *)
Definition steps_of (spec : v1.isVersionedApplicationSpec_InstallationSpec) : list v1.Step :=
  match spec with
  | v1.VersionedApplicationSpec_GithubChart g =>
      [{| v1.step_name := ""; v1.step_step := Some (v1.Step_GithubChart g) |}]
  | v1.VersionedApplicationSpec_HelmArchive a =>
      [{| v1.step_name := ""; v1.step_step := Some (v1.Step_HelmArchive a) |}]
  | v1.VersionedApplicationSpec_ManifestsArchive a =>
      [{| v1.step_name := ""; v1.step_step := Some (v1.Step_ManifestsArchive a) |}]
  | v1.VersionedApplicationSpec_InstallationSteps st => v1.steps st
  end.

(** Modelled from the spec: the Step Orchestrator. After all steps are
    rendered and labeled, the resources contributed by the layer
    customizations are appended as the final batch. *)
Definition orchestrate (spec : option v1.isVersionedApplicationSpec_InstallationSpec)
    (values : Values) (layer_resources : list Resource) : M (list Resource) :=
  match spec with
  | None => fail [NoInstallSourceDefined]
  | Some sp =>
      do batch <- render_steps values (steps_of sp) [];
      ret (batch ++ layer_resources)
  end.

(** The Templating Engine renders step [s] to [manifests]. *)
Definition step_renders (values : Values) (s : v1.Step) (manifests : list Resource) : Prop :=
  exists src, v1.step_step s = Some src /\ render src values = inr manifests.

(** The batch of a step: its manifests, each labeled with the step. *)
Definition step_batch (s : v1.Step) (manifests : list Resource) : list Resource :=
  map (label_with_step (v1.step_name s)) manifests.

(** The Templating Engine calls that rendering the steps takes, in order. *)
Definition step_calls (values : Values) (ss : list v1.Step) : Log :=
  map (fun src => (src, values)) (omap v1.step_step ss).

(** *** Rendering a selected flavor (4.6, 7) *)

(** Modelled from the spec: the part of a render request that the Layer
    Composer and the Step Orchestrator work on. *)
Record Request := {
  flavor : v1.Flavor;
  layerChoices : gmap string string;
  parameterOverrides : gmap string string;
  targetNamespace : string
}.

(** Modelled from the spec: the Plan Resolver's drive of the Layer Composer
    and the Step Orchestrator. Layer validation errors are reported before
    any Templating Engine call is made. *)
Definition resolve_flavor (version : v1.VersionedApplicationSpec) (req : Request)
  : M (list Resource) :=
  let c := compose_layers (targetNamespace req) (layerChoices req)
                          (v1.flavor_customization_layers (flavor req)) in
  match composed_errors c with
  | [] =>
      orchestrate (v1.installation_spec version)
        {| base_values := v1.values_yaml version;
           layer_values := composed_values c;
           parameter_values := parameterOverrides req |}
        (composed_manifests c)
  | errors => fail errors
  end.

End Engine.

End engine.

(** ** Example data

    An application in the shape of the gloo extension that the test renders:
    one version, flavors with a customization layer, and a stand-in for the
    Templating Engine. *)

Module example.
Import engine.
Local Open Scope list_scope.

Definition deployment (name : string) : Resource :=
  {| resource_kind := "Deployment";
     resource_namespace := "default";
     resource_name := name;
     resource_labels := {[ "app" := "gloo" ]};
     resource_body := "" |}.

Definition source_name (src : InstallSource) : string :=
  match src with
  | v1.Step_GithubChart g => v1.github_directory g
  | v1.Step_HelmArchive a => v1.tgz_uri a
  | v1.Step_ManifestsArchive a => v1.tgz_uri a
  end.

(** A Templating Engine that renders one deployment per install source and
    rejects an empty location. *)
Definition render (src : InstallSource) (values : Values) : string + list Resource :=
  match source_name src with
  | EmptyString => inl "empty location"
  | name => inr [deployment name]
  end.

(** A cluster without secrets. *)
Definition getSecret (ns name : string) : option (gmap string string) := None.

Definition settings : Resource :=
  {| resource_kind := "Settings";
     resource_namespace := "gloo-system";
     resource_name := "default";
     resource_labels := ∅;
     resource_body := "" |}.

Definition step_label : string := "installation-step".

Section WithRuntime.
Context {R : Runtime}.

Definition layer_manifests (l : v1.Layer) (o : v1.LayerOption) : list Resource :=
  [settings].

Definition create : v1.LayerOption :=
  {| v1.option_id := "create";
     v1.option_display_name := "Create";
     v1.option_description := "";
     v1.option_helm_values := "settings: {create: true}";
     v1.option_parameters := [];
     v1.option_resource_dependencies := [] |}.

Definition custom_resources (optional : bool) : v1.Layer :=
  {| v1.layer_id := "custom-resources";
     v1.layer_display_name := "Custom resources";
     v1.layer_description := "";
     v1.layer_optional := optional;
     v1.layer_options := [create] |}.

Definition vanilla (optional : bool) : v1.Flavor :=
  {| v1.flavor_name := "vanilla";
     v1.flavor_description := "";
     v1.flavor_customization_layers := [custom_resources optional];
     v1.flavor_requirement_sets := [];
     v1.flavor_parameters := [] |}.

(** The flavor the test builds by hand: a name and nothing else. *)
Definition custom_flavor : v1.Flavor :=
  {| v1.flavor_name := "custom-flavor";
     v1.flavor_description := "";
     v1.flavor_customization_layers := [];
     v1.flavor_requirement_sets := [];
     v1.flavor_parameters := [] |}.

Definition archive_step (name uri : string) : v1.Step :=
  {| v1.step_name := name;
     v1.step_step := Some (v1.Step_ManifestsArchive {| v1.tgz_uri := uri |}) |}.

Definition three_steps : v1.InstallationSteps :=
  {| v1.steps := [archive_step "pre-install" "crds.tgz";
                  archive_step "core" "gloo.tgz";
                  archive_step "post-install" "jobs.tgz"] |}.

Definition version_0_18_35 : v1.VersionedApplicationSpec :=
  {| v1.version := "0.18.35";
     v1.date_published := None;
     v1.installation_spec := Some (v1.VersionedApplicationSpec_InstallationSteps three_steps);
     v1.values_yaml := "";
     v1.required_labels := ∅;
     v1.flavors := [vanilla true; vanilla false];
     v1.respect_manifest_namespaces := false;
     v1.parameters := [] |}.

Definition version_0_18_36 : v1.VersionedApplicationSpec :=
  {| v1.version := "0.18.36";
     v1.date_published := None;
     v1.installation_spec :=
       Some (v1.VersionedApplicationSpec_HelmArchive {| v1.tgz_uri := "gloo-0.18.36.tgz" |});
     v1.values_yaml := "";
     v1.required_labels := ∅;
     v1.flavors := [vanilla true];
     v1.respect_manifest_namespaces := false;
     v1.parameters := [] |}.

Definition gloo : v1.ApplicationSpec :=
  {| v1.application_type := v1.EXTENSION;
     v1.application_name := "gloo";
     v1.logo_url := "";
     v1.short_description := "";
     v1.long_description := "";
     v1.documentation_url := "";
     v1.repository_url := "";
     v1.application_creator := "";
     v1.application_provider := "";
     v1.application_maintainer := "";
     v1.date_created := None;
     v1.application_versions := [version_0_18_35; version_0_18_36] |}.

Definition request (f : v1.Flavor) (choices : gmap string string) : Request :=
  {| flavor := f;
     layerChoices := choices;
     parameterOverrides := {[ "apiServer.enable" := "true" ]};
     targetNamespace := "gloo-system" |}.

End WithRuntime.

Definition istio_1_0_to_1_5 : v1.RequirementSet :=
  {| v1.mesh_requirement :=
       {| v1.mesh_type := v1.ISTIO;
          v1.versions := Some {| v1.min_version := "1.0.0"; v1.max_version := "1.5.0" |} |} |}.

End example.

(** ** The test set-up: extensions/v1/gloo/test/gloo_test.go *)

Module gloo_test.
Section WithRuntime.
Context {R : Runtime}.

(** The loop of [BeforeEach]: the map is made empty and every version of the
    spec is stored under its version string, in the order of [spec.Versions];
    a later assignment to the same key replaces the earlier one. *)
Definition versionMap (spec : v1.ApplicationSpec) : gmap string v1.VersionedApplicationSpec :=
  foldl (fun m version => <[v1.version version := version]> m) ∅ (v1.application_versions spec).

(** The last of [versions] that carries the version string [k]. *)
Fixpoint last_with_version (k : string) (versions : list v1.VersionedApplicationSpec)
  : option v1.VersionedApplicationSpec :=
  match versions with
  | [] => None
  | v :: versions' =>
      match last_with_version k versions' with
      | Some w => Some w
      | None => if String.eqb (v1.version v) k then Some v else None
      end
  end.

End WithRuntime.
End gloo_test.

(** * Properties *)

(** ** strconv: integer formatting *)

Section strconv_facts.
Import strconv.
Local Open Scope Z_scope.

Lemma small_cases (d : Z) :
  0 <= d < 10 ->
  d = 0 \/ d = 1 \/ d = 2 \/ d = 3 \/ d = 4 \/ d = 5 \/ d = 6 \/ d = 7 \/ d = 8 \/ d = 9.
Proof. lia. Qed.

Lemma digit_value_digit (d : Z) : 0 <= d < 10 -> digit_value (digit d) = Some d.
Proof.
  intros Hd. destruct (small_cases d Hd) as [-> | Hr]; [reflexivity |].
  repeat (destruct Hr as [-> | Hr]; [reflexivity |]). subst d. reflexivity.
Qed.

Lemma digit_nonzero (d : Z) : 0 < d < 10 -> digit d <> "0"%char.
Proof.
  intros Hd. assert (Hd' : 0 <= d < 10) by lia.
  destruct (small_cases d Hd') as [-> | Hr]; [lia |].
  repeat (destruct Hr as [-> | Hr]; [discriminate |]). subst d. discriminate.
Qed.

Lemma string_app_cons (c : ascii) (s t : string) :
  (String c s ++ t = String c (s ++ t))%string.
Proof. reflexivity. Qed.

Lemma string_app_nil (t : string) : ("" ++ t = t)%string.
Proof. reflexivity. Qed.

Lemma digits_value_cons (c : ascii) (s : string) (acc : Z) :
  digits_value acc (String c s) =
  match digit_value c with
  | Some d => digits_value (10 * acc + d) s
  | None => None
  end.
Proof. reflexivity. Qed.

Lemma digits_value_nil (acc : Z) : digits_value acc "" = Some acc.
Proof. reflexivity. Qed.

Lemma formatBits_loop_S (fuel : nat) (u : Z) (a : string) :
  formatBits_loop (S fuel) u a =
  if 10 <=? u
  then formatBits_loop fuel (u / 10) (String (digit (u mod 10)) a)
  else String (digit u) a.
Proof. reflexivity. Qed.

Lemma formatBits_loop_O (u : Z) (a : string) :
  formatBits_loop O u a = String (digit (u mod 10)) a.
Proof. reflexivity. Qed.

Lemma digits_value_app (s t : string) (acc : Z) :
  digits_value acc (s ++ t) =
  match digits_value acc s with
  | Some v => digits_value v t
  | None => None
  end.
Proof.
  revert acc. induction s as [| c s IH]; intros acc; [reflexivity |].
  rewrite string_app_cons, !digits_value_cons.
  destruct (digit_value c); [apply IH | reflexivity].
Qed.

Lemma string_app_assoc (s t u : string) : ((s ++ t) ++ u = s ++ t ++ u)%string.
Proof.
  induction s as [| c s IH]; [reflexivity |].
  rewrite !string_app_cons, IH. reflexivity.
Qed.

(** The loop writes its digits in front of what the buffer holds. *)
Lemma formatBits_loop_app (fuel : nat) (u : Z) (a : string) :
  formatBits_loop fuel u a = (formatBits_loop fuel u "" ++ a)%string.
Proof.
  revert u a. induction fuel as [| fuel IH]; intros u a; [reflexivity |].
  rewrite !formatBits_loop_S.
  destruct (10 <=? u); [| reflexivity].
  rewrite (IH _ (String _ a)), (IH _ (String _ "")).
  rewrite string_app_assoc. reflexivity.
Qed.

(** With enough room in the buffer the digits written denote [u]. *)
Lemma formatBits_loop_value (fuel : nat) (u : Z) :
  0 <= u < 10 ^ Z.of_nat (S fuel) ->
  digits_value 0 (formatBits_loop fuel u "") = Some u.
Proof.
  revert u. induction fuel as [| fuel IH]; intros u Hu.
  - change (10 ^ Z.of_nat 1) with 10 in Hu. rewrite formatBits_loop_O.
    rewrite Z.mod_small by lia.
    rewrite digits_value_cons, digit_value_digit, digits_value_nil by lia.
    f_equal; lia.
  - rewrite formatBits_loop_S. destruct (Z.leb_spec 10 u) as [Hge | Hlt].
    + rewrite formatBits_loop_app, digits_value_app.
      assert (Hq : 0 <= u / 10 < 10 ^ Z.of_nat (S fuel)).
      { split; [apply Z.div_pos; lia |].
        apply Z.div_lt_upper_bound; [lia |].
        replace (Z.of_nat (S (S fuel))) with (Z.of_nat (S fuel) + 1) in Hu by lia.
        rewrite Z.pow_add_r, Z.pow_1_r in Hu by lia. lia. }
      rewrite (IH _ Hq).
      rewrite digits_value_cons, digit_value_digit, digits_value_nil
        by (apply Z.mod_pos_bound; lia).
      f_equal. pose proof (Z.div_mod u 10). lia.
    + rewrite digits_value_cons, digit_value_digit, digits_value_nil by lia.
      f_equal; lia.
Qed.

(** A positive number is written without a leading zero. *)
Lemma formatBits_loop_leading (fuel : nat) (u : Z) (a : string) :
  0 < u < 10 ^ Z.of_nat (S fuel) ->
  exists c s', formatBits_loop fuel u a = String c s' /\ c <> "0"%char.
Proof.
  revert u a. induction fuel as [| fuel IH]; intros u a Hu.
  - change (10 ^ Z.of_nat 1) with 10 in Hu. rewrite formatBits_loop_O.
    rewrite Z.mod_small by lia. eexists _, _. split; [reflexivity |].
    apply digit_nonzero. lia.
  - rewrite formatBits_loop_S. destruct (Z.leb_spec 10 u) as [Hge | Hlt].
    + apply IH. split.
      * apply Z.div_str_pos. lia.
      * apply Z.div_lt_upper_bound; [lia |].
        replace (Z.of_nat (S (S fuel))) with (Z.of_nat (S fuel) + 1) in Hu by lia.
        rewrite Z.pow_add_r, Z.pow_1_r in Hu by lia. lia.
    + eexists _, _. split; [reflexivity |]. apply digit_nonzero. lia.
Qed.

Lemma formatBits_loop_zero (fuel : nat) : formatBits_loop fuel 0 "" = "0"%string.
Proof. destruct fuel; reflexivity. Qed.

Lemma pow10_buffer : 2 ^ 64 < 10 ^ Z.of_nat 66.
Proof. reflexivity. Qed.

(** [FormatInt] writes the canonical base-10 representation of every
    [int64]. *)
Lemma FormatInt_canonical (i : Z) :
  mach.int64_range i -> canonical_decimal i (FormatInt i).
Proof.
  unfold mach.int64_range, mach.in_signed. change (2 ^ (64 - 1)) with (2 ^ 63).
  intros Hi. pose proof pow10_buffer as Hbuf.
  assert (H63 : 2 ^ 64 = 2 * 2 ^ 63) by reflexivity.
  unfold canonical_decimal, FormatInt, formatBits, mach.wrap_unsigned.
  destruct (Z.ltb_spec i 0) as [Hneg | Hpos].
  - assert (Hu : (- (i mod 2 ^ 64)) mod 2 ^ 64 = - i).
    { replace (i mod 2 ^ 64) with (i + 2 ^ 64).
      - replace (- (i + 2 ^ 64)) with (- i + (-1) * 2 ^ 64) by lia.
        rewrite Z.mod_add by lia. apply Z.mod_small. lia.
      - apply Z.mod_unique with (q := -1); lia. }
    rewrite Hu. exists (formatBits_loop 65 (- i) "").
    destruct (formatBits_loop_leading 65 (- i) "") as (c & s' & Hs & Hc); [lia |].
    split; [reflexivity |]. split.
    + unfold numeral_value. rewrite Hs, <- Hs.
      rewrite formatBits_loop_value by lia. f_equal. lia.
    + right. eauto.
  - rewrite Z.mod_small by lia. exists (formatBits_loop 65 i "").
    split; [reflexivity |].
    destruct (Z.eq_dec i 0) as [-> | Hnz].
    + rewrite formatBits_loop_zero. split; [reflexivity | left; reflexivity].
    + destruct (formatBits_loop_leading 65 i "") as (c & s' & Hs & Hc); [lia |].
      split.
      * unfold numeral_value. rewrite Hs, <- Hs.
        rewrite formatBits_loop_value by lia. f_equal. lia.
      * right. eauto.
Qed.

(** *** The canonical representation is unique *)

Lemma digit_value_range (c : ascii) (d : Z) : digit_value c = Some d -> 0 <= d < 10.
Proof.
  unfold digit_value.
  destruct (Z.leb_spec 48 (Z.of_nat (nat_of_ascii c)));
    destruct (Z.leb_spec (Z.of_nat (nat_of_ascii c)) 57); simpl; intros [= <-]; lia.
Qed.

Lemma digit_value_inj (c1 c2 : ascii) (d : Z) :
  digit_value c1 = Some d -> digit_value c2 = Some d -> c1 = c2.
Proof.
  unfold digit_value. intros H1 H2.
  destruct ((48 <=? Z.of_nat (nat_of_ascii c1)) && (Z.of_nat (nat_of_ascii c1) <=? 57));
    [| discriminate].
  destruct ((48 <=? Z.of_nat (nat_of_ascii c2)) && (Z.of_nat (nat_of_ascii c2) <=? 57));
    [| discriminate].
  injection H1 as H1. injection H2 as H2.
  rewrite <- (ascii_nat_embedding c1), <- (ascii_nat_embedding c2).
  f_equal. lia.
Qed.

Lemma pow10_S (n : nat) : 10 ^ Z.of_nat (S n) = 10 * 10 ^ Z.of_nat n.
Proof.
  replace (Z.of_nat (S n)) with (1 + Z.of_nat n) by lia.
  rewrite Z.pow_add_r by lia. reflexivity.
Qed.

Lemma pow10_pos (n : nat) : 0 < 10 ^ Z.of_nat n.
Proof. apply Z.pow_pos_nonneg; lia. Qed.

(** The value read after an accumulator [acc] lies in the [acc]-th block of
    size [10 ^ length]. *)
Lemma digits_value_bounds (s : string) (acc v : Z) :
  digits_value acc s = Some v ->
  acc * 10 ^ Z.of_nat (String.length s) <= v < (acc + 1) * 10 ^ Z.of_nat (String.length s).
Proof.
  revert acc v. induction s as [| c s IH]; intros acc v.
  - rewrite digits_value_nil. intros [= <-]. simpl. lia.
  - rewrite digits_value_cons. destruct (digit_value c) as [d |] eqn:Hd; [| discriminate].
    intros Hv. pose proof (digit_value_range _ _ Hd) as Hrange.
    apply IH in Hv. change (String.length (String c s)) with (S (String.length s)).
    rewrite pow10_S. pose proof (pow10_pos (String.length s)). nia.
Qed.

(** Two digit strings of the same length with the same value are equal. *)
Lemma digits_value_inj (s1 s2 : string) (acc v : Z) :
  String.length s1 = String.length s2 ->
  digits_value acc s1 = Some v ->
  digits_value acc s2 = Some v ->
  s1 = s2.
Proof.
  revert s2 acc. induction s1 as [| c1 s1 IH]; intros [| c2 s2] acc; try discriminate.
  - reflexivity.
  - intros [= Hlen]. rewrite !digits_value_cons.
    destruct (digit_value c1) as [d1 |] eqn:Hd1; [| discriminate].
    destruct (digit_value c2) as [d2 |] eqn:Hd2; [| discriminate].
    intros H1 H2.
    pose proof (digits_value_bounds _ _ _ H1) as B1.
    pose proof (digits_value_bounds _ _ _ H2) as B2.
    rewrite Hlen in B1. pose proof (pow10_pos (String.length s2)) as Hpos.
    assert (d1 = d2) as -> by nia.
    rewrite (digit_value_inj _ _ _ Hd1 Hd2). f_equal. eapply IH; eassumption.
Qed.

(** A numeral without leading zero has as many digits as its value needs. *)
Lemma numeral_value_magnitude (c : ascii) (s : string) (w : Z) :
  c <> "0"%char ->
  numeral_value (String c s) = Some w ->
  10 ^ Z.of_nat (String.length s) <= w < 10 ^ Z.of_nat (S (String.length s)).
Proof.
  intros Hc. unfold numeral_value. rewrite digits_value_cons.
  destruct (digit_value c) as [d |] eqn:Hd; [| discriminate].
  intros Hw. pose proof (digit_value_range _ _ Hd) as Hrange.
  assert (d <> 0).
  { intros ->. apply Hc. apply (digit_value_inj _ _ 0 Hd). reflexivity. }
  apply digits_value_bounds in Hw. rewrite pow10_S.
  pose proof (pow10_pos (String.length s)). nia.
Qed.

Lemma numeral_unique (b1 b2 : string) (w : Z) :
  numeral_value b1 = Some w -> no_leading_zero b1 ->
  numeral_value b2 = Some w -> no_leading_zero b2 ->
  b1 = b2.
Proof.
  intros V1 [-> | (c1 & s1 & -> & Hc1)] V2 [-> | (c2 & s2 & -> & Hc2)].
  - reflexivity.
  - change (Some 0 = Some w) in V1. injection V1 as <-.
    apply (numeral_value_magnitude _ _ _ Hc2) in V2.
    pose proof (pow10_pos (String.length s2)). lia.
  - change (Some 0 = Some w) in V2. injection V2 as <-.
    apply (numeral_value_magnitude _ _ _ Hc1) in V1.
    pose proof (pow10_pos (String.length s1)). lia.
  - pose proof (numeral_value_magnitude _ _ _ Hc1 V1) as M1.
    pose proof (numeral_value_magnitude _ _ _ Hc2 V2) as M2.
    assert (Hlen : String.length s1 = String.length s2).
    { destruct (Nat.lt_trichotomy (String.length s1) (String.length s2)) as [Hlt | [He | Hlt]];
        [exfalso | exact He | exfalso].
      - assert (10 ^ Z.of_nat (S (String.length s1)) <= 10 ^ Z.of_nat (String.length s2))
          by (apply Z.pow_le_mono_r; lia). lia.
      - assert (10 ^ Z.of_nat (S (String.length s2)) <= 10 ^ Z.of_nat (String.length s1))
          by (apply Z.pow_le_mono_r; lia). lia. }
    unfold numeral_value in V1, V2.
    apply (digits_value_inj _ _ 0 w); [simpl; f_equal; exact Hlen | exact V1 | exact V2].
Qed.

(** An integer has exactly one canonical base-10 representation. *)
Lemma canonical_decimal_unique (v : Z) (s1 s2 : string) :
  canonical_decimal v s1 -> canonical_decimal v s2 -> s1 = s2.
Proof.
  intros (b1 & -> & V1 & L1) (b2 & -> & V2 & L2).
  rewrite (numeral_unique b1 b2 _ V1 L1 V2 L2). reflexivity.
Qed.

End strconv_facts.

(** ** Machine integers *)

Section mach_facts.
Local Open Scope Z_scope.

(** Converting to a type that is wide enough keeps the value. *)
Lemma wrap_signed_id (w x : Z) : 0 < w -> mach.in_signed w x -> mach.wrap_signed w x = x.
Proof.
  unfold mach.in_signed, mach.wrap_signed. intros Hw Hx.
  assert (Hp : 2 ^ w = 2 * 2 ^ (w - 1)).
  { replace w with (1 + (w - 1)) at 1 by lia. rewrite Z.pow_add_r by lia. reflexivity. }
  rewrite Z.mod_small by lia. lia.
Qed.

(** The result of a conversion always fits the target type. *)
Lemma wrap_signed_range (w x : Z) : 0 < w -> mach.in_signed w (mach.wrap_signed w x).
Proof.
  unfold mach.in_signed, mach.wrap_signed. intros Hw.
  assert (Hp : 2 ^ w = 2 * 2 ^ (w - 1)).
  { replace w with (1 + (w - 1)) at 1 by lia. rewrite Z.pow_add_r by lia. reflexivity. }
  assert (Hpos : 0 < 2 ^ (w - 1)) by (apply Z.pow_pos_nonneg; lia).
  pose proof (Z.mod_pos_bound (x + 2 ^ (w - 1)) (2 ^ w)). lia.
Qed.

Lemma in_signed_widen (x : Z) : mach.in_signed 32 x -> mach.int64_range x.
Proof.
  unfold mach.int64_range, mach.in_signed.
  change (2 ^ (32 - 1)) with 2147483648. change (2 ^ (64 - 1)) with 9223372036854775808.
  lia.
Qed.

End mach_facts.

(** ** ParamValueToString *)

Section ParamValueToString_facts.
Import v1 util.

(** Nothing but the empty string contains a non-empty string. *)
Lemma embeds_empty (sub : string) : engine.embeds "" sub -> sub = "".
Proof.
  intros (before & after & H).
  destruct before as [| c before]; [| discriminate H].
  destruct sub as [| c sub]; [reflexivity | discriminate H].
Qed.

(** On the Go structs: a boolean is rendered as "true" or "false", a string
    as itself and a date whose time is set as what [String] returns on that
    time. *)
Lemma ParamValueToString_members {R : Runtime} :
  (forall b : bool,
     params.ParamValueToString
       (Some {| pb.Type_ := Some (pb.Ptr_BooleanValue (Some {| pb.BooleanValue := b |})) |}) =
     params.Returned (if b then "true" else "false")) /\
  (forall s : string,
     params.ParamValueToString
       (Some {| pb.Type_ := Some (pb.Ptr_StringValue (Some {| pb.StringValue := s |})) |}) =
     params.Returned s) /\
  (forall d : time_Time,
     params.ParamValueToString
       (Some {| pb.Type_ := Some (pb.Ptr_DateValue (Some {| pb.DateValue := Some d |})) |}) =
     params.Returned (time_String d)).
Proof. repeat split. intros []; reflexivity. Qed.

(** C1: on every target, the value
    [&v1.ParameterValue{Type: &v1.ParameterValue_DateValue{DateValue: nil}}],
    whose variant is a date, has no string returned for it: [String] is
    called through the nil [*time.Time] and the call panics. *)
Theorem ParamValueToString_date_nil_panics {R : Runtime} :
  params.ParamValueToString
    (Some {| pb.Type_ := Some (pb.Ptr_DateValue (Some {| pb.DateValue := None |})) |}) =
  params.Panicked.
Proof. reflexivity. Qed.

(** On a UTC time the timestamp rendering is the layout
    [2006-01-02 15:04:05.999999999 -0700 MST]. *)
Example ParamValueToString_date_example :
  ParamValueToString (R := refrt.go_amd64)
    (value_of (ParameterValue_DateValue (R := refrt.go_amd64)
                 {| refrt.unixSec := 1563980645; refrt.nsec := 120000000 |})) =
  "2019-07-24 15:04:05.12 +0000 UTC".
Proof. vm_compute. reflexivity. Qed.

(** The integer member is rendered as [Itoa] of its conversion to [int]. *)
Lemma ParamValueToString_int {R : Runtime} (i : Z) :
  ParamValueToString (value_of (ParameterValue_IntValue i)) =
  strconv.Itoa (mach.wrap_signed IntSize i).
Proof. reflexivity. Qed.

(** The float member is rendered by [FormatFloat] in format 'f' with the
    shortest precision (-1) for 64 bits. *)
Lemma ParamValueToString_float {R : Runtime} (f : float64) :
  ParamValueToString (value_of (ParameterValue_FloatValue f)) =
  strconv_FormatFloat f "f"%char (-1) 64.
Proof. reflexivity. Qed.

(** On every target the integer member is rendered as the canonical base-10
    representation of its value converted to [int], that is, of its low
    [IntSize] bits. *)
Theorem ParamValueToString_int_canonical_wrapped {R : Runtime} (i : Z) :
  strconv.canonical_decimal (mach.wrap_signed IntSize i)
    (ParamValueToString (value_of (ParameterValue_IntValue i))).
Proof.
  rewrite ParamValueToString_int. apply FormatInt_canonical.
  destruct IntSize_cases as [-> | ->].
  - apply in_signed_widen, wrap_signed_range. lia.
  - apply wrap_signed_range. lia.
Qed.

(** Where [int] is 64 bits wide, every [int64] is rendered in its canonical
    base-10 representation. *)
Theorem ParamValueToString_int_canonical_64 {R : Runtime} (i : Z) :
  IntSize = 64%Z ->
  mach.int64_range i ->
  strconv.canonical_decimal i
    (ParamValueToString (value_of (ParameterValue_IntValue i))).
Proof.
  intros Hsize Hi. rewrite ParamValueToString_int, Hsize.
  rewrite wrap_signed_id by (assumption || lia).
  apply FormatInt_canonical. exact Hi.
Qed.

Lemma ParamValueToString_int_canonical_64_witness :
  strconv.canonical_decimal 4294967296
    (ParamValueToString (R := refrt.go_amd64)
       (value_of (ParameterValue_IntValue 4294967296))).
Proof.
  apply (ParamValueToString_int_canonical_64 (R := refrt.go_amd64) 4294967296).
  - reflexivity.
  - unfold mach.int64_range, mach.in_signed. simpl. lia.
Defined.

(** C2: on a target whose [int] is 32 bits wide, the conversion [int(...)]
    keeps only the low 32 bits of the [int64]: 2147483648 is rendered as
    "-2147483648". *)
Theorem ParamValueToString_int_truncated_32 :
  ParamValueToString (R := refrt.go_386)
    (value_of (ParameterValue_IntValue 2147483648)) = "-2147483648".
Proof. vm_compute. reflexivity. Qed.

(** On the 64-bit reference runtime the same value is rendered in full. *)
Example ParamValueToString_int_example_64 :
  ParamValueToString (R := refrt.go_amd64)
    (value_of (ParameterValue_IntValue 2147483648)) = "2147483648".
Proof. vm_compute. reflexivity. Qed.

(** Floats: the shortest decimal that reads back as the same value, never
    with an exponent; the values that are no numbers are spelled out. *)
Example ParamValueToString_float_examples :
  let render bits :=
    ParamValueToString (value_of (ParameterValue_FloatValue (R := refrt.go_amd64) bits)) in
  render 0x3FB999999999999A%Z = "0.1" /\
  render 0x3FD3333333333334%Z = "0.30000000000000004" /\
  render 0x444B1AE4D6E2EF50%Z = "1000000000000000000000" /\
  render 0xC00921FB54442D18%Z = "-3.141592653589793" /\
  render 0x7FF8000000000001%Z = "NaN" /\
  render 0x7FF0000000000000%Z = "+Inf".
Proof. vm_compute. repeat split. Qed.

(** The branch of the secret member. *)
Lemma ParamValueToString_secret {R : Runtime} (s : SecretValue) :
  ParamValueToString (value_of (ParameterValue_SecretValue s)) = "".
Proof. reflexivity. Qed.

(** C4: for a secret the result is the empty string, the branch marked as
    not yet supported; the call does not fail. *)
Theorem ParamValueToString_secret_empty {R : Runtime} (s : SecretValue) :
  ParamValueToString (value_of (ParameterValue_SecretValue s)) = "".
Proof. apply ParamValueToString_secret. Qed.

(** C3 as stated fails: the Secret Resolver turns the plain-text secret
    "hunter2" into "hunter2", while [ParamValueToString] does not return that
    literal value. *)
Lemma ParamValueToString_secret_not_resolved :
  engine.resolve_secret (fun _ _ => None) (fun _ => None) "gloo-system"
    (SecretValue_PlainText "hunter2") = inr "hunter2" /\
  ParamValueToString (R := refrt.go_amd64)
    (value_of (ParameterValue_SecretValue
                 {| secret_value_type := Some (SecretValue_PlainText "hunter2") |}))
  <> "hunter2".
Proof. split; [reflexivity | discriminate]. Qed.

(** C3, amended: for a secret the result is the empty string, whatever the
    Secret Resolver would make of it, so that none of the secret's raw forms
    (reference, key, file path or plain text) is embedded in the output. *)
Theorem ParamValueToString_secret_never_embedded {R : Runtime} (s : SecretValue) :
  ParamValueToString (value_of (ParameterValue_SecretValue s)) = "" /\
  forall raw : string,
    In raw (engine.raw_forms s) ->
    raw <> "" ->
    ~ engine.embeds (ParamValueToString (value_of (ParameterValue_SecretValue s))) raw.
Proof.
  split; [reflexivity |]. intros raw _ Hraw.
  rewrite ParamValueToString_secret. intros H. apply Hraw, embeds_empty, H.
Qed.

Lemma ParamValueToString_secret_never_embedded_witness :
  let s := {| secret_value_type := Some (SecretValue_FilePath "/etc/tls/key.pem") |} in
  ParamValueToString (R := refrt.go_amd64) (value_of (ParameterValue_SecretValue s)) = "" /\
  ~ engine.embeds
      (ParamValueToString (R := refrt.go_amd64) (value_of (ParameterValue_SecretValue s)))
      "/etc/tls/key.pem".
Proof.
  split.
  - apply (ParamValueToString_secret_never_embedded (R := refrt.go_amd64)
             {| secret_value_type := Some (SecretValue_FilePath "/etc/tls/key.pem") |}).
  - apply (proj2 (ParamValueToString_secret_never_embedded (R := refrt.go_amd64)
             {| secret_value_type := Some (SecretValue_FilePath "/etc/tls/key.pem") |})
             "/etc/tls/key.pem").
    + simpl. left. reflexivity.
    + discriminate.
Defined.

(** C9: a nil value and a value whose oneof is unset are rendered as the
    empty string, but the function is not total: it panics on a date member
    whose time is nil and on a nil wrapper of a member it reads, here the
    boolean one. *)
Theorem ParamValueToString_not_total {R : Runtime} :
  params.ParamValueToString None = params.Returned "" /\
  params.ParamValueToString (Some {| pb.Type_ := None |}) = params.Returned "" /\
  params.ParamValueToString
    (Some {| pb.Type_ := Some (pb.Ptr_DateValue (Some {| pb.DateValue := None |})) |}) =
  params.Panicked /\
  params.ParamValueToString (Some {| pb.Type_ := Some (pb.Ptr_BooleanValue None) |}) =
  params.Panicked.
Proof. repeat split. Qed.

(** C10: the result for a secret does not depend on the secret: any two
    secret values are rendered alike. *)
Theorem ParamValueToString_secret_noninterference {R : Runtime} (s1 s2 : SecretValue) :
  ParamValueToString (value_of (ParameterValue_SecretValue s1)) =
  ParamValueToString (value_of (ParameterValue_SecretValue s2)).
Proof. reflexivity. Qed.

(** On the Go struct of a message given as a value the function returns,
    and what it returns is the rendering of that message. *)
Lemma ParamValueToString_of_value {R : Runtime} (v : option ParameterValue) :
  params.ParamValueToString (pb.of_value v) = params.Returned (ParamValueToString v).
Proof.
  destruct v as [[[t |]] |]; [| reflexivity ..].
  destruct t as [s | i | f | [] | d | s]; reflexivity.
Qed.

(** The call panics exactly when the oneof holds a member that is read
    through a nil pointer. *)
Lemma ParamValueToString_panics_iff {R : Runtime} (v : option pb.ParameterValue) :
  params.ParamValueToString v = params.Panicked <->
  exists t, pb.GetType v = Some t /\ pb.nil_member t = true.
Proof.
  unfold params.ParamValueToString. destruct (pb.GetType v) as [t |].
  - split.
    + intros H. exists t. split; [reflexivity |].
      destruct t as [[w |] | [w |] | [w |] | [w |] | [w |] | p]; simpl in *;
        try reflexivity; try discriminate H.
      * destruct (pb.BooleanValue w); discriminate H.
      * destruct (pb.DateValue w); [discriminate H | reflexivity].
    + intros (t' & [= <-] & H).
      destruct t as [[w |] | [w |] | [w |] | [w |] | [w |] | [p |]]; simpl in *;
        try reflexivity; try discriminate H.
      destruct (pb.DateValue w); [discriminate H | reflexivity].
  - split; [discriminate |]. intros (t & H & _). discriminate H.
Qed.

(** The two embeddings of [ParamValueToString] agree. On the Go struct of
    a message given as a value the function returns the rendering of that
    message, and the struct stands for that message. On every Go struct the
    function returns the rendering of the message the struct stands for, and
    panics when the struct stands for none, which is exactly when the oneof
    holds a member that is read through a nil pointer. *)
Theorem ParamValueToString_refines {R : Runtime} :
  (forall v : option ParameterValue,
     params.ParamValueToString (pb.of_value v) = params.Returned (ParamValueToString v) /\
     pb.to_value (pb.of_value v) = Some v) /\
  (forall v : option pb.ParameterValue,
     params.ParamValueToString v =
     match pb.to_value v with
     | Some v' => params.Returned (ParamValueToString v')
     | None => params.Panicked
     end) /\
  (forall v : option pb.ParameterValue,
     params.ParamValueToString v = params.Panicked <->
     exists t, pb.GetType v = Some t /\ pb.nil_member t = true).
Proof.
  split; [| split; [| exact ParamValueToString_panics_iff]].
  - intros v. split; [apply ParamValueToString_of_value |].
    destruct v as [[[t |]] |]; [| reflexivity ..].
    destruct t as [s | i | f | b | d | [s]]; reflexivity.
  - intros [[[t |]] |]; [| reflexivity ..].
    destruct t as [[[x] |] | [[x] |] | [[x] |] | [[[|]] |] | [[[x |]] |] | [[[x |]] |]];
      reflexivity.
Qed.

End ParamValueToString_facts.

(** ** Compatibility Validator *)

Section compatibility_facts.
Import v1 engine.
Local Open Scope Z_scope.

(** *** Reading version strings *)

Lemma forallb_string_app (p : ascii -> bool) (s t : string) :
  forallb_string p (s ++ t) = forallb_string p s && forallb_string p t.
Proof.
  induction s as [| c s IH]; [reflexivity |].
  rewrite string_app_cons. simpl. rewrite IH, andb_assoc. reflexivity.
Qed.

Lemma forallb_string_weaken (p q : ascii -> bool) (s : string) :
  (forall c, p c = true -> q c = true) ->
  forallb_string p s = true -> forallb_string q s = true.
Proof.
  intros Hpq. induction s as [| c s IH]; simpl; [reflexivity |].
  rewrite !andb_true_iff. intros [Hc Hs]. auto.
Qed.

(** A string without separator is cut and split nowhere. *)
Lemma cut_app (p : ascii -> bool) (sep : ascii) (s t : string) :
  p sep = false ->
  forallb_string p s = true ->
  cut sep (s ++ t) = let '(before, after) := cut sep t in ((s ++ before)%string, after).
Proof.
  intros Hsep. induction s as [| c s IH]; intros Hs.
  - rewrite string_app_nil. destruct (cut sep t). reflexivity.
  - simpl in Hs. apply andb_true_iff in Hs as [Hc Hs].
    rewrite string_app_cons. simpl.
    destruct (Ascii.eqb_spec c sep) as [-> | _]; [congruence |].
    rewrite (IH Hs). destruct (cut sep t). reflexivity.
Qed.

Lemma cut_clean (p : ascii -> bool) (sep : ascii) (s : string) :
  p sep = false -> forallb_string p s = true -> cut sep s = (s, None).
Proof.
  intros Hsep. induction s as [| c s IH]; intros Hs; [reflexivity |].
  simpl in Hs. apply andb_true_iff in Hs as [Hc Hs]. simpl.
  destruct (Ascii.eqb_spec c sep) as [-> | _]; [congruence |].
  rewrite (IH Hs). reflexivity.
Qed.

Lemma split_clean (p : ascii -> bool) (sep : ascii) (s : string) :
  p sep = false -> forallb_string p s = true -> split sep s = [s].
Proof.
  intros Hsep. induction s as [| c s IH]; intros Hs; [reflexivity |].
  simpl in Hs. apply andb_true_iff in Hs as [Hc Hs]. simpl.
  destruct (Ascii.eqb_spec c sep) as [-> | _]; [congruence |].
  rewrite (IH Hs). reflexivity.
Qed.

Lemma split_app (p : ascii -> bool) (sep : ascii) (s t : string) :
  p sep = false ->
  forallb_string p s = true ->
  split sep (s ++ String sep t) = s :: split sep t.
Proof.
  intros Hsep. induction s as [| c s IH]; intros Hs.
  - rewrite string_app_nil. simpl. rewrite Ascii.eqb_refl. reflexivity.
  - simpl in Hs. apply andb_true_iff in Hs as [Hc Hs].
    rewrite string_app_cons. simpl.
    destruct (Ascii.eqb_spec c sep) as [-> | _]; [congruence |].
    rewrite (IH Hs). reflexivity.
Qed.

Lemma forallb_string_cons (p : ascii -> bool) (c : ascii) (s : string) :
  forallb_string p (String c s) = p c && forallb_string p s.
Proof. reflexivity. Qed.

Lemma is_digit_digit (d : Z) : 0 <= d < 10 -> is_digit (strconv.digit d) = true.
Proof. intros Hd. unfold is_digit. rewrite digit_value_digit by exact Hd. reflexivity. Qed.

Lemma formatBits_loop_digits (fuel : nat) (u : Z) (a : string) :
  0 <= u ->
  forallb_string is_digit a = true ->
  forallb_string is_digit (strconv.formatBits_loop fuel u a) = true.
Proof.
  revert u a. induction fuel as [| fuel IH]; intros u a Hu Ha.
  - rewrite formatBits_loop_O, forallb_string_cons.
    rewrite is_digit_digit by (apply Z.mod_pos_bound; lia). exact Ha.
  - rewrite formatBits_loop_S. destruct (Z.leb_spec 10 u) as [Hge | Hlt].
    + apply IH; [apply Z.div_pos; lia |]. rewrite forallb_string_cons.
      rewrite is_digit_digit by (apply Z.mod_pos_bound; lia). exact Ha.
    + rewrite forallb_string_cons, is_digit_digit by lia. exact Ha.
Qed.

Lemma decimal_bound (n : N) :
  0 <= Z.of_N n < 10 ^ Z.of_nat (S (Z.to_nat (Z.log2 (Z.of_N n)))).
Proof.
  split; [lia |].
  pose proof (Z.log2_nonneg (Z.of_N n)) as Hlog.
  replace (Z.of_nat (S (Z.to_nat (Z.log2 (Z.of_N n))))) with (Z.succ (Z.log2 (Z.of_N n))) by lia.
  destruct (Z.eq_dec (Z.of_N n) 0) as [-> | Hnz].
  - reflexivity.
  - pose proof (Z.log2_spec (Z.of_N n)) as [_ Hlt]; [lia |].
    assert (2 ^ Z.succ (Z.log2 (Z.of_N n)) <= 10 ^ Z.succ (Z.log2 (Z.of_N n)))
      by (apply Z.pow_le_mono_l; lia).
    lia.
Qed.

(** The decimal numeral of [n] is a numeric identifier that reads as [n]. *)
Lemma decimal_digits (n : N) : forallb_string is_digit (decimal n) = true.
Proof. apply formatBits_loop_digits; [lia | reflexivity]. Qed.

Lemma numeric_identifier_decimal (n : N) :
  numeric_identifier (decimal n) = Some (Z.of_N n).
Proof.
  pose proof (decimal_bound n) as Hb. unfold decimal.
  assert (Hvalue : strconv.numeral_value
                     (strconv.formatBits_loop (Z.to_nat (Z.log2 (Z.of_N n))) (Z.of_N n) "")
                   = Some (Z.of_N n)).
  { destruct (Z.eq_dec (Z.of_N n) 0) as [E | Hnz].
    - rewrite E, formatBits_loop_zero. reflexivity.
    - destruct (formatBits_loop_leading (Z.to_nat (Z.log2 (Z.of_N n))) (Z.of_N n) "")
        as (c & s' & Hs & _); [lia |].
      unfold strconv.numeral_value. rewrite Hs, <- Hs.
      apply formatBits_loop_value. exact Hb. }
  destruct (Z.eq_dec (Z.of_N n) 0) as [E | Hnz].
  - rewrite E, formatBits_loop_zero. reflexivity.
  - destruct (formatBits_loop_leading (Z.to_nat (Z.log2 (Z.of_N n))) (Z.of_N n) "")
      as (c & s' & Hs & Hc); [lia |].
    rewrite Hs in *. unfold numeric_identifier.
    destruct s' as [| c' s'']; [exact Hvalue |].
    destruct (Ascii.eqb_spec c "0") as [-> | _]; [congruence | exact Hvalue].
Qed.

Lemma release_string_chars (x y z : N) :
  forallb_string digit_or_dot (release_string x y z) = true.
Proof.
  assert (Hd : forall n, forallb_string digit_or_dot (decimal n) = true).
  { intros n. apply (forallb_string_weaken is_digit); [| apply decimal_digits].
    intros c Hc. unfold digit_or_dot. rewrite Hc. reflexivity. }
  unfold release_string. rewrite !forallb_string_app, !Hd. reflexivity.
Qed.

Lemma split_release (x y z : N) :
  split "." (release_string x y z) = [decimal x; decimal y; decimal z].
Proof.
  unfold release_string.
  change ("." ++ decimal y ++ "." ++ decimal z)%string
    with (String "." (decimal y ++ String "." (decimal z))).
  rewrite (split_app is_digit ".") by (reflexivity || apply decimal_digits).
  rewrite (split_app is_digit ".") by (reflexivity || apply decimal_digits).
  rewrite (split_clean is_digit ".") by (reflexivity || apply decimal_digits).
  reflexivity.
Qed.

(** The version string of a release reads back as that release. *)
Lemma parse_release (x y z : N) :
  parse_version (release_string x y z) = Some (release x y z).
Proof.
  unfold parse_version.
  rewrite (cut_clean digit_or_dot "+") by (reflexivity || apply release_string_chars).
  rewrite (cut_clean digit_or_dot "-") by (reflexivity || apply release_string_chars).
  rewrite split_release, !numeric_identifier_decimal. reflexivity.
Qed.

(** *** The ordering *)

Lemma string_compare_refl (s : string) : String.compare s s = Eq.
Proof.
  pose proof (String.compare_antisym s s) as H.
  destruct (String.compare s s); (reflexivity || discriminate H).
Qed.

Lemma string_compare_eq (s t : string) : String.compare s t = Eq <-> s = t.
Proof.
  split; [apply String.compare_eq_iff | intros ->; apply string_compare_refl].
Qed.

Lemma identifier_compare_eq (a b : Identifier) : identifier_compare a b = Eq <-> a = b.
Proof.
  destruct a as [x | s], b as [y | t]; simpl.
  - rewrite Z.compare_eq_iff. split; congruence.
  - split; discriminate.
  - split; discriminate.
  - rewrite string_compare_eq. split; congruence.
Qed.

Lemma identifier_compare_lt (a b : Identifier) :
  identifier_compare a b = Lt <-> identifier_lt a b.
Proof.
  destruct a as [x | s], b as [y | t]; simpl.
  - apply Z.compare_lt_iff.
  - tauto.
  - split; [discriminate | tauto].
  - reflexivity.
Qed.

Lemma identifiers_compare_eq (a b : list Identifier) :
  identifiers_compare a b = Eq <-> a = b.
Proof.
  revert b. induction a as [| x a IH]; intros [| y b]; simpl;
    try (split; (reflexivity || discriminate)).
  destruct (identifier_compare x y) eqn:E.
  - apply identifier_compare_eq in E as ->. rewrite IH. split; congruence.
  - split; [discriminate |]. intros [= -> ->].
    rewrite (proj2 (identifier_compare_eq y y) eq_refl) in E. discriminate E.
  - split; [discriminate |]. intros [= -> ->].
    rewrite (proj2 (identifier_compare_eq y y) eq_refl) in E. discriminate E.
Qed.

Lemma identifiers_compare_lt (a b : list Identifier) :
  identifiers_compare a b = Lt <-> identifiers_lt a b.
Proof.
  revert b. induction a as [| x a IH]; intros [| y b]; simpl;
    try (split; (reflexivity || discriminate || tauto)).
  destruct (identifier_compare x y) eqn:E.
  - apply identifier_compare_eq in E as ->. rewrite IH. split; [tauto |].
    intros [H | [_ H]]; [| exact H].
    apply identifier_compare_lt in H.
    rewrite (proj2 (identifier_compare_eq y y) eq_refl) in H. discriminate H.
  - apply identifier_compare_lt in E. tauto.
  - split; [discriminate |]. intros [H | [-> _]].
    + apply identifier_compare_lt in H. congruence.
    + rewrite (proj2 (identifier_compare_eq y y) eq_refl) in E. discriminate E.
Qed.

Lemma prerelease_compare_eq (a b : list Identifier) :
  prerelease_compare a b = Eq <-> a = b.
Proof.
  destruct a as [| x a], b as [| y b]; try (simpl; split; (reflexivity || discriminate)).
  apply identifiers_compare_eq.
Qed.

Lemma prerelease_compare_lt (a b : list Identifier) :
  prerelease_compare a b = Lt <-> prerelease_lt a b.
Proof.
  destruct a as [| x a], b as [| y b];
    try (simpl; split; (reflexivity || discriminate || tauto)).
  apply identifiers_compare_lt.
Qed.

Lemma semver_compare_eq (a b : Semver) : semver_compare a b = Eq <-> a = b.
Proof.
  destruct a as [a1 a2 a3 ap], b as [b1 b2 b3 bp]. unfold semver_compare. simpl.
  destruct (Z.compare_spec a1 b1) as [-> | H | H];
    [| split; [discriminate | intros [=]; lia] ..].
  destruct (Z.compare_spec a2 b2) as [-> | H | H];
    [| split; [discriminate | intros [=]; lia] ..].
  destruct (Z.compare_spec a3 b3) as [-> | H | H];
    [| split; [discriminate | intros [=]; lia] ..].
  rewrite prerelease_compare_eq. split; congruence.
Qed.

Lemma semver_compare_lt (a b : Semver) : semver_compare a b = Lt <-> semver_lt a b.
Proof.
  unfold semver_compare, semver_lt.
  destruct (Z.compare_spec (major a) (major b)) as [E1 | H | H];
    [| split; [intros _; lia | reflexivity] | split; [discriminate | lia]].
  destruct (Z.compare_spec (minor a) (minor b)) as [E2 | H | H];
    [| split; [intros _; lia | reflexivity] | split; [discriminate | lia]].
  destruct (Z.compare_spec (patch a) (patch b)) as [E3 | H | H];
    [| split; [intros _; lia | reflexivity] | split; [discriminate | lia]].
  rewrite prerelease_compare_lt. split; [intros Hp; right; auto 10 |].
  intros [Hlt | [_ [Hlt | [_ [Hlt | [_ Hp]]]]]]; (lia || exact Hp).
Qed.

(** The comparison decides precedence as Semantic Versioning states it. *)
Lemma semver_leb_spec (a b : Semver) : semver_leb a b = true <-> semver_le a b.
Proof.
  unfold semver_leb, semver_le. destruct (semver_compare a b) eqn:E.
  - apply semver_compare_eq in E. tauto.
  - apply semver_compare_lt in E. tauto.
  - split; [discriminate |]. intros [H | H].
    + apply semver_compare_eq in H. congruence.
    + apply semver_compare_lt in H. congruence.
Qed.

(** Releases are ordered as triples of numbers, the major number first. *)
Lemma semver_le_release (x y z x' y' z' : N) :
  semver_le (release x y z) (release x' y' z') <->
  (x < x' \/ (x = x' /\ (y < y' \/ (y = y' /\ z <= z'))))%N.
Proof.
  unfold semver_le, semver_lt, release. simpl. split.
  - intros [[= H1 H2 H3] | H]; lia.
  - intros H.
    destruct (N.eq_dec x x') as [-> | Hx]; [| right; lia].
    destruct (N.eq_dec y y') as [-> | Hy]; [| right; lia].
    destruct (N.eq_dec z z') as [-> | Hz]; [left; reflexivity | right; lia].
Qed.

Lemma version_leb_spec (a b : string) : version_leb a b = true <-> version_le a b.
Proof.
  unfold version_leb, version_le. split.
  - destruct (parse_version a) as [x |]; [| discriminate].
    destruct (parse_version b) as [y |]; [| discriminate].
    intros H. exists x, y. rewrite <- semver_leb_spec. auto.
  - intros (x & y & -> & -> & H). apply semver_leb_spec, H.
Qed.

Lemma version_le_release (x y z x' y' z' : N) :
  version_le (release_string x y z) (release_string x' y' z') <->
  (x < x' \/ (x = x' /\ (y < y' \/ (y = y' /\ z <= z'))))%N.
Proof.
  rewrite <- semver_le_release. unfold version_le. rewrite !parse_release. split.
  - intros (a & b & [= <-] & [= <-] & H). exact H.
  - intros H. eauto.
Qed.

(** *** Every semantic version has a version string, which reads back *)

Lemma string_app_nil_r (s : string) : (s ++ "")%string = s.
Proof.
  induction s as [| c s IH]; [reflexivity |].
  rewrite string_app_cons, IH. reflexivity.
Qed.

Lemma is_digit_identifier_char (c : ascii) :
  is_digit c = true -> is_identifier_char c = true.
Proof. intros H. unfold is_identifier_char. rewrite H. reflexivity. Qed.

Lemma numeric_identifier_nonneg (s : string) (n : Z) :
  numeric_identifier s = Some n -> 0 <= n.
Proof.
  intros H.
  assert (Hv : strconv.numeral_value s = Some n).
  { destruct s as [| c [| c' s']]; [exact H .. |].
    unfold numeric_identifier in H. destruct (Ascii.eqb c "0"); [discriminate H | exact H]. }
  destruct s as [| c s]; [discriminate Hv |].
  apply digits_value_bounds in Hv. lia.
Qed.

Lemma identifier_valid (s : string) (i : Identifier) :
  identifier s = Some i -> valid_identifier i = true.
Proof.
  unfold identifier. destruct (forallb_string is_digit s) eqn:Hd.
  - destruct (numeric_identifier s) as [n |] eqn:Hn; [| discriminate].
    intros [= <-]. simpl. apply Z.leb_le, (numeric_identifier_nonneg s), Hn.
  - destruct (forallb_string is_identifier_char s) eqn:Hc; [| discriminate].
    intros [= <-]. simpl. rewrite Hd, Hc. reflexivity.
Qed.

Lemma identifiers_valid (fields : list string) (ids : list Identifier) :
  identifiers fields = Some ids -> forallb valid_identifier ids = true.
Proof.
  revert ids. induction fields as [| f fields IH]; intros ids; simpl.
  - intros [= <-]. reflexivity.
  - destruct (identifier f) as [i |] eqn:Hi; [| discriminate].
    destruct (identifiers fields) as [l |]; [| discriminate].
    intros [= <-]. simpl. rewrite (identifier_valid f i Hi), (IH l eq_refl). reflexivity.
Qed.

(** What is read from a version string is a semantic version that has a
    version string. *)
Lemma parse_version_valid (s : string) (v : Semver) :
  parse_version s = Some v -> valid_semver v = true.
Proof.
  unfold parse_version. destruct (cut "+" s) as [rest build].
  destruct (cut "-" rest) as [core pre].
  destruct (match build with Some b => valid_build b | None => true end); [| discriminate].
  destruct (split "." core) as [| a [| b [| c [| ? ?]]]]; try discriminate.
  destruct (match pre with Some p => identifiers (split "." p) | None => Some [] end)
    as [ids |] eqn:Hids; [| discriminate].
  destruct (numeric_identifier a) as [x |] eqn:Hx; [| discriminate].
  destruct (numeric_identifier b) as [y |] eqn:Hy; [| discriminate].
  destruct (numeric_identifier c) as [z |] eqn:Hz; [| discriminate].
  intros [= <-]. unfold valid_semver. simpl.
  apply numeric_identifier_nonneg in Hx, Hy, Hz.
  rewrite !(proj2 (Z.leb_le 0 _)) by assumption. simpl.
  destruct pre as [p |].
  - apply (identifiers_valid _ _ Hids).
  - injection Hids as <-. reflexivity.
Qed.

Lemma identifier_string_chars (i : Identifier) :
  valid_identifier i = true ->
  forallb_string is_identifier_char (identifier_string i) = true.
Proof.
  destruct i as [n | s]; simpl.
  - intros _. apply (forallb_string_weaken is_digit); [| apply decimal_digits].
    apply is_digit_identifier_char.
  - rewrite andb_true_iff. tauto.
Qed.

Lemma identifier_identifier_string (i : Identifier) :
  valid_identifier i = true -> identifier (identifier_string i) = Some i.
Proof.
  destruct i as [n | s]; simpl.
  - intros Hn%Z.leb_le. unfold identifier.
    rewrite decimal_digits, numeric_identifier_decimal. simpl.
    rewrite Z2N.id by exact Hn. reflexivity.
  - rewrite andb_true_iff, negb_true_iff. intros [Hd Hc]. unfold identifier.
    rewrite Hd, Hc. reflexivity.
Qed.

Lemma identifiers_identifier_strings (ids : list Identifier) :
  forallb valid_identifier ids = true ->
  identifiers (map identifier_string ids) = Some ids.
Proof.
  induction ids as [| i ids IH]; simpl; [reflexivity |].
  rewrite andb_true_iff. intros [Hi Hids].
  rewrite (identifier_identifier_string i Hi), (IH Hids). reflexivity.
Qed.

Lemma dotted_cons (f g : string) (fields : list string) :
  dotted (f :: g :: fields) = (f ++ String "." (dotted (g :: fields)))%string.
Proof. reflexivity. Qed.

(** Fields without a dot, joined by dots, are split into themselves. *)
Lemma split_dotted (f : string) (fields : list string) :
  Forall (fun g => forallb_string is_identifier_char g = true) (f :: fields) ->
  split "." (dotted (f :: fields)) = f :: fields.
Proof.
  revert f. induction fields as [| g fields IH]; intros f Hall.
  - apply (split_clean is_identifier_char); [reflexivity |].
    apply (Forall_inv Hall).
  - rewrite dotted_cons.
    rewrite (split_app is_identifier_char) by (reflexivity || apply (Forall_inv Hall)).
    rewrite (IH g (Forall_inv_tail Hall)). reflexivity.
Qed.

Lemma dotted_chars (fields : list string) :
  Forall (fun g => forallb_string is_identifier_char g = true) fields ->
  forallb_string version_char (dotted fields) = true.
Proof.
  assert (Hw : forall g, forallb_string is_identifier_char g = true ->
                         forallb_string version_char g = true).
  { intros g. apply forallb_string_weaken. intros c Hc. unfold version_char.
    rewrite Hc. reflexivity. }
  induction fields as [| f [| g fields] IH]; intros Hall.
  - reflexivity.
  - apply Hw, (Forall_inv Hall).
  - rewrite dotted_cons, forallb_string_app, forallb_string_cons.
    rewrite (Hw f (Forall_inv Hall)), (IH (Forall_inv_tail Hall)). reflexivity.
Qed.

Lemma identifier_strings_chars (ids : list Identifier) :
  forallb valid_identifier ids = true ->
  Forall (fun g => forallb_string is_identifier_char g = true) (map identifier_string ids).
Proof.
  induction ids as [| i ids IH]; simpl; [constructor |].
  rewrite andb_true_iff. intros [Hi Hids].
  constructor; [apply identifier_string_chars, Hi | apply IH, Hids].
Qed.

Lemma version_string_chars (v : Semver) :
  valid_semver v = true -> forallb_string version_char (version_string v) = true.
Proof.
  unfold valid_semver. rewrite !andb_true_iff. intros [_ Hids].
  unfold version_string. rewrite forallb_string_app.
  rewrite (forallb_string_weaken digit_or_dot version_char _);
    [| | apply release_string_chars].
  - destruct (prerelease v) as [| i ids]; [reflexivity |].
    rewrite forallb_string_cons. apply (dotted_chars (map identifier_string (i :: ids))).
    apply identifier_strings_chars, Hids.
  - intros c. unfold digit_or_dot, version_char. rewrite !orb_true_iff.
    intros [Hc | Hc]; [left; apply is_digit_identifier_char, Hc | right; exact Hc].
Qed.

Lemma cut_separator (sep : ascii) (s : string) :
  cut sep (String sep s) = (EmptyString, Some s).
Proof. simpl. rewrite Ascii.eqb_refl. reflexivity. Qed.

(** The version string of a semantic version reads back as that version. *)
Lemma parse_version_string (v : Semver) :
  valid_semver v = true -> parse_version (version_string v) = Some v.
Proof.
  intros Hv. unfold parse_version.
  rewrite (cut_clean version_char "+") by (reflexivity || apply version_string_chars, Hv).
  unfold valid_semver in Hv. rewrite !andb_true_iff in Hv.
  destruct Hv as [[[Hx%Z.leb_le Hy%Z.leb_le] Hz%Z.leb_le] Hids].
  unfold version_string.
  rewrite (cut_app digit_or_dot "-") by (reflexivity || apply release_string_chars).
  destruct v as [x y z ids]. cbn [major minor patch prerelease] in *.
  destruct ids as [| i ids].
  - change (cut "-" "") with (EmptyString, @None string). cbv beta iota.
    rewrite string_app_nil_r, split_release, !numeric_identifier_decimal.
    rewrite !Z2N.id by assumption. reflexivity.
  - rewrite cut_separator. cbv beta iota.
    rewrite string_app_nil_r, split_release, !numeric_identifier_decimal.
    pose proof (identifier_strings_chars (i :: ids) Hids) as Hchars.
    pose proof (identifiers_identifier_strings (i :: ids) Hids) as Hread.
    change (map identifier_string (i :: ids))
      with (identifier_string i :: map identifier_string ids) in *.
    rewrite (split_dotted _ _ Hchars), Hread.
    rewrite !Z2N.id by assumption. reflexivity.
Qed.

(** Build metadata is checked and then plays no part. *)
Lemma parse_version_build (v : Semver) (build : string) :
  valid_semver v = true ->
  parse_version (version_string v ++ String "+" build) =
  if valid_build build then Some v else None.
Proof.
  intros Hv. pose proof (parse_version_string v Hv) as Hp. unfold parse_version in *.
  rewrite (cut_clean version_char "+") in Hp
    by (reflexivity || apply version_string_chars, Hv).
  rewrite (cut_app version_char "+") by (reflexivity || apply version_string_chars, Hv).
  rewrite cut_separator. cbv beta iota. rewrite string_app_nil_r.
  destruct (cut "-" (version_string v)) as [core pre].
  destruct (valid_build build); [exact Hp | reflexivity].
Qed.

(** On version strings the comparison is the precedence of the versions. *)
Lemma version_le_version_string (a b : Semver) :
  valid_semver a = true ->
  valid_semver b = true ->
  (version_le (version_string a) (version_string b) <-> semver_le a b).
Proof.
  intros Ha Hb. unfold version_le.
  rewrite (parse_version_string a Ha), (parse_version_string b Hb). split.
  - intros (x & y & [= <-] & [= <-] & H). exact H.
  - intros H. eauto.
Qed.

(** *** Precedence is a total order *)

Lemma string_compare_lt_trans (s t u : string) :
  String.compare s t = Lt -> String.compare t u = Lt -> String.compare s u = Lt.
Proof.
  intros Hst Htu.
  assert (Hle : String.le s u).
  { transitivity t; unfold String.le, String.leb; [rewrite Hst | rewrite Htu]; exact I. }
  unfold String.le, String.leb in Hle.
  destruct (String.compare s u) eqn:Hsu; [| reflexivity | destruct Hle].
  apply String.compare_eq_iff in Hsu as ->.
  rewrite String.compare_antisym, Hst in Htu. discriminate Htu.
Qed.

Lemma identifier_lt_irrefl (a : Identifier) : ~ identifier_lt a a.
Proof.
  destruct a as [x | s]; simpl; [lia |]. rewrite string_compare_refl. discriminate.
Qed.

Lemma identifier_lt_trans (a b c : Identifier) :
  identifier_lt a b -> identifier_lt b c -> identifier_lt a c.
Proof.
  destruct a as [x | s], b as [y | t], c as [z | u]; simpl; try tauto; try lia.
  apply string_compare_lt_trans.
Qed.

Lemma identifiers_lt_irrefl (a : list Identifier) : ~ identifiers_lt a a.
Proof.
  induction a as [| x a IH]; simpl; [tauto |].
  intros [H | [_ H]]; [exact (identifier_lt_irrefl x H) | exact (IH H)].
Qed.

Lemma identifiers_lt_trans (a b c : list Identifier) :
  identifiers_lt a b -> identifiers_lt b c -> identifiers_lt a c.
Proof.
  revert b c. induction a as [| x a IH]; intros [| y b] [| z c]; simpl; try tauto.
  intros [Hxy | [-> Hab]] [Hyz | [-> Hbc]].
  - left. exact (identifier_lt_trans x y z Hxy Hyz).
  - left. exact Hxy.
  - left. exact Hyz.
  - right. split; [reflexivity | exact (IH b c Hab Hbc)].
Qed.

Lemma prerelease_lt_irrefl (a : list Identifier) : ~ prerelease_lt a a.
Proof. destruct a as [| x a]; [simpl; tauto | apply identifiers_lt_irrefl]. Qed.

Lemma prerelease_lt_trans (a b c : list Identifier) :
  prerelease_lt a b -> prerelease_lt b c -> prerelease_lt a c.
Proof.
  destruct a as [| x a], b as [| y b], c as [| z c]; try (simpl; tauto).
  apply identifiers_lt_trans.
Qed.

Lemma semver_lt_irrefl (a : Semver) : ~ semver_lt a a.
Proof.
  unfold semver_lt. pose proof (prerelease_lt_irrefl (prerelease a)) as Hp.
  intros [H | [_ [H | [_ [H | [_ H]]]]]]; [lia .. | exact (Hp H)].
Qed.

Lemma semver_lt_trans (a b c : Semver) : semver_lt a b -> semver_lt b c -> semver_lt a c.
Proof.
  unfold semver_lt.
  pose proof (prerelease_lt_trans (prerelease a) (prerelease b) (prerelease c)) as Hp.
  intros [H1 | [E1 [H2 | [E2 [H3 | [E3 Hab]]]]]] [H1' | [E1' [H2' | [E2' [H3' | [E3' Hbc]]]]]];
    try (left; lia);
    try (right; split; [lia |]; left; lia);
    try (right; split; [lia |]; right; split; [lia |]; left; lia).
  right. split; [lia |]. right. split; [lia |]. right. split; [lia | auto].
Qed.

Lemma semver_le_refl (a : Semver) : semver_le a a.
Proof. left. reflexivity. Qed.

Lemma semver_le_trans (a b c : Semver) : semver_le a b -> semver_le b c -> semver_le a c.
Proof.
  intros [-> | Hab] [-> | Hbc]; [left; reflexivity | right; assumption .. |].
  right. exact (semver_lt_trans a b c Hab Hbc).
Qed.

Lemma semver_le_antisym (a b : Semver) : semver_le a b -> semver_le b a -> a = b.
Proof.
  intros [-> | Hab] [E | Hba]; [reflexivity .. | congruence |].
  destruct (semver_lt_irrefl a (semver_lt_trans a b a Hab Hba)).
Qed.

Lemma identifier_compare_antisym (a b : Identifier) :
  identifier_compare b a = CompOpp (identifier_compare a b).
Proof.
  destruct a as [x | s], b as [y | t]; simpl; try reflexivity.
  - apply Z.compare_antisym.
  - apply String.compare_antisym.
Qed.

Lemma identifiers_compare_antisym (a b : list Identifier) :
  identifiers_compare b a = CompOpp (identifiers_compare a b).
Proof.
  revert b. induction a as [| x a IH]; intros [| y b]; simpl; try reflexivity.
  rewrite (identifier_compare_antisym x y), IH.
  destruct (identifier_compare x y); reflexivity.
Qed.

Lemma prerelease_compare_antisym (a b : list Identifier) :
  prerelease_compare b a = CompOpp (prerelease_compare a b).
Proof.
  destruct a as [| x a], b as [| y b]; try reflexivity.
  apply identifiers_compare_antisym.
Qed.

Lemma semver_compare_antisym (a b : Semver) :
  semver_compare b a = CompOpp (semver_compare a b).
Proof.
  unfold semver_compare.
  rewrite (Z.compare_antisym (major a) (major b)), (Z.compare_antisym (minor a) (minor b)),
    (Z.compare_antisym (patch a) (patch b)), (prerelease_compare_antisym (prerelease a)).
  destruct (major a ?= major b); try reflexivity.
  destruct (minor a ?= minor b); try reflexivity.
  destruct (patch a ?= patch b); reflexivity.
Qed.

Lemma semver_le_total (a b : Semver) : semver_le a b \/ semver_le b a.
Proof.
  rewrite <- !semver_leb_spec. unfold semver_leb.
  rewrite (semver_compare_antisym a b). destruct (semver_compare a b); auto.
Qed.

Lemma is_empty_spec (s : string) : is_empty s = true <-> s = "".
Proof. destruct s; simpl; split; congruence. Qed.

Lemma versions_allow_spec (range : option AllowedVersions) (v : string) :
  versions_allow range v = true <-> version_within range v.
Proof.
  destruct range as [r |]; simpl; [| tauto].
  rewrite andb_true_iff, !orb_true_iff, !is_empty_spec, !version_leb_spec.
  reflexivity.
Qed.

Lemma MeshType_eqb_spec (a b : MeshType) : MeshType_eqb a b = true <-> a = b.
Proof. destruct a, b; simpl; split; congruence. Qed.

(** *** Examples *)

(** What is a version string and what is not: the core has three numbers
    without leading zeros and nothing in front. *)
Example parse_version_examples :
  let v x y z ids := Some {| major := x; minor := y; patch := z; prerelease := ids |} in
  parse_version "1.3.2" = v 1 3 2 [] /\
  parse_version "1.0.0-alpha.1" = v 1 0 0 [Alphanumeric "alpha"; Numeric 1] /\
  parse_version "1.0.0-x-y.7+build.5" = v 1 0 0 [Alphanumeric "x-y"; Numeric 7] /\
  parse_version "1.0.0+20130313144700" = v 1 0 0 [] /\
  parse_version "1.3" = None /\
  parse_version "v1.3.2" = None /\
  parse_version "01.3.2" = None /\
  parse_version "1.0.0-rc.01" = None /\
  parse_version "1.0.0-" = None /\
  parse_version "1.0.0+" = None /\
  parse_version "" = None.
Proof. vm_compute. repeat split. Qed.

Example version_string_examples :
  release_string 1 10 0 = "1.10.0" /\
  version_string {| major := 1; minor := 0; patch := 0;
                    prerelease := [Alphanumeric "rc"; Numeric 1] |} = "1.0.0-rc.1".
Proof. vm_compute. split; reflexivity. Qed.

(** The ordering is the semantic one, not the lexical one: 1.10.0 lies within
    [1.9.0, 1.12.0] although it sorts before 1.9.0 as a string. *)
Example version_order_not_lexical :
  version_leb "1.9.0" "1.10.0" = true /\
  version_leb "1.10.0" "1.9.0" = false /\
  version_leb "1.10.0" "1.12.0" = true /\
  String.leb "1.9.0" "1.10.0" = false.
Proof. vm_compute. repeat split. Qed.

(** The chain of precedence that Semantic Versioning gives as its example,
    and build metadata, which makes no difference. *)
Example version_precedence_examples :
  let lt a b := version_leb a b && negb (version_leb b a) in
  lt "1.0.0-alpha" "1.0.0-alpha.1" = true /\
  lt "1.0.0-alpha.1" "1.0.0-alpha.beta" = true /\
  lt "1.0.0-alpha.beta" "1.0.0-beta" = true /\
  lt "1.0.0-beta" "1.0.0-beta.2" = true /\
  lt "1.0.0-beta.2" "1.0.0-beta.11" = true /\
  lt "1.0.0-beta.11" "1.0.0-rc.1" = true /\
  lt "1.0.0-rc.1" "1.0.0" = true /\
  lt "1.0.0" "2.0.0" = true /\
  lt "2.0.0" "2.1.0" = true /\
  lt "2.1.0" "2.1.1" = true /\
  version_leb "1.0.0+a" "1.0.0+b" = true /\
  version_leb "1.0.0+b" "1.0.0+a" = true.
Proof. vm_compute. repeat split. Qed.

(** The requirement of section 8 of the spec. *)
Example requirement_set_examples :
  let target t v := {| runtime_type := t; runtime_version := v |} in
  requirement_set_satisfied example.istio_1_0_to_1_5 (target ISTIO "1.3.2") = true /\
  requirement_set_satisfied example.istio_1_0_to_1_5 (target ISTIO "1.6.0") = false /\
  requirement_set_satisfied example.istio_1_0_to_1_5 (target LINKERD "1.3.2") = false /\
  requirement_set_satisfied example.istio_1_0_to_1_5 (target ISTIO "1.0.0") = true /\
  requirement_set_satisfied example.istio_1_0_to_1_5 (target ISTIO "1.5.0") = true /\
  requirement_set_satisfied example.istio_1_0_to_1_5 (target ISTIO "1.5.0-rc.1") = true /\
  requirement_set_satisfied example.istio_1_0_to_1_5 (target ISTIO "1.0.0-rc.1") = false /\
  requirement_set_satisfied example.istio_1_0_to_1_5 (target ISTIO "1.5.1") = false.
Proof. vm_compute. repeat split. Qed.

(** A flavor without requirement sets, and one with the requirement above. *)
Example flavor_applicable_examples :
  let target t v := {| runtime_type := t; runtime_version := v |} in
  let flavor sets :=
    {| flavor_name := "istio"; flavor_description := "";
       flavor_customization_layers := []; flavor_requirement_sets := sets;
       flavor_parameters := [] |} in
  flavor_applicable (R := refrt.go_amd64) (flavor []) (target LINKERD "2.6.0") = true /\
  flavor_applicable (R := refrt.go_amd64) (flavor [example.istio_1_0_to_1_5])
    (target ISTIO "1.3.2") = true /\
  flavor_applicable (R := refrt.go_amd64) (flavor [example.istio_1_0_to_1_5])
    (target LINKERD "2.6.0") = false.
Proof. vm_compute. repeat split. Qed.

(** C5: a flavor is applicable iff it has no requirement set or at least one
    of them is satisfied; a requirement set is satisfied iff its mesh type
    equals the target's and the target's version lies within the inclusive
    range, an unset bound being open. The ordering of the range is the
    semantic one: on the version strings of any two semantic versions it is
    the precedence of Semantic Versioning, and on releases it compares major,
    minor and patch as numbers, in this order. *)
Theorem flavor_applicable_spec {R : Runtime} (f : Flavor) (t : TargetRuntime) :
  (flavor_applicable f t = true <->
   flavor_requirement_sets f = [] \/
   exists rs, In rs (flavor_requirement_sets f) /\ requirement_set_satisfied rs t = true) /\
  (forall rs : RequirementSet,
     requirement_set_satisfied rs t = true <->
     mesh_type (mesh_requirement rs) = runtime_type t /\
     match versions (mesh_requirement rs) with
     | None => True
     | Some range =>
         (min_version range = "" \/
          version_leb (min_version range) (runtime_version t) = true) /\
         (max_version range = "" \/
          version_leb (runtime_version t) (max_version range) = true)
     end) /\
  (forall a b : Semver,
     valid_semver a = true ->
     valid_semver b = true ->
     (version_leb (version_string a) (version_string b) = true <-> semver_le a b)) /\
  (forall x y z x' y' z' : N,
     version_leb (release_string x y z) (release_string x' y' z') = true <->
     (x < x' \/ (x = x' /\ (y < y' \/ (y = y' /\ z <= z'))))%N).
Proof.
  split; [| split; [| split]].
  - unfold flavor_applicable. destruct (flavor_requirement_sets f) as [| rs sets] eqn:E.
    + split; auto.
    + rewrite existsb_exists. split; [auto |].
      intros [H | H]; [discriminate H | exact H].
  - intros rs. unfold requirement_set_satisfied.
    rewrite andb_true_iff, MeshType_eqb_spec, versions_allow_spec.
    unfold version_within. destruct (versions (mesh_requirement rs)) as [range |];
      [| reflexivity].
    rewrite !version_leb_spec. reflexivity.
  - intros a b Ha Hb. rewrite version_leb_spec. apply version_le_version_string; assumption.
  - intros x y z x' y' z'. rewrite version_leb_spec. apply version_le_release.
Qed.

Lemma flavor_applicable_spec_witness :
  version_leb
    (version_string {| major := 1; minor := 5; patch := 0;
                       prerelease := [Alphanumeric "rc"; Numeric 1] |})
    (version_string {| major := 1; minor := 5; patch := 0; prerelease := [] |}) = true <->
  semver_le {| major := 1; minor := 5; patch := 0;
               prerelease := [Alphanumeric "rc"; Numeric 1] |}
            {| major := 1; minor := 5; patch := 0; prerelease := [] |}.
Proof.
  apply (proj1 (proj2 (proj2
           (flavor_applicable_spec (R := refrt.go_amd64) example.custom_flavor
              {| runtime_type := ISTIO; runtime_version := "1.5.0" |})))
           {| major := 1; minor := 5; patch := 0;
              prerelease := [Alphanumeric "rc"; Numeric 1] |}
           {| major := 1; minor := 5; patch := 0; prerelease := [] |});
    reflexivity.
Defined.

End compatibility_facts.

(** ** Step Orchestrator *)

Section orchestrator_facts.
Import v1 engine.
Local Open Scope list_scope.

Variable render : InstallSource -> Values -> string + list Resource.
Variable step_label : string.

Lemma step_calls_cons (values : Values) (s : Step) (ss : list Step) :
  step_calls values (s :: ss) = step_calls values [s] ++ step_calls values ss.
Proof.
  unfold step_calls. simpl. destruct (step_step s); reflexivity.
Qed.

(** A step that renders yields its labeled batch and costs one call. *)
Lemma render_step_ok (values : Values) (s : Step) (manifests : list Resource) (log : Log) :
  step_renders render values s manifests ->
  render_step render step_label values s log =
  (inr (step_batch step_label s manifests), log ++ step_calls values [s]).
Proof.
  intros (src & Hsrc & Hrender).
  unfold render_step, step_calls, bind, call_engine, ret. simpl.
  rewrite Hsrc, Hrender. reflexivity.
Qed.

(** The steps are rendered from left to right; each batch is appended to what
    the earlier steps produced. *)
Lemma render_steps_ok (values : Values) (ss : list Step) (batches : list (list Resource)) :
  Forall2 (step_renders render values) ss batches ->
  forall (batch : list Resource) (log : Log),
    render_steps render step_label values ss batch log =
    (inr (batch ++ concat (zip_with (step_batch step_label) ss batches)),
     log ++ step_calls values ss).
Proof.
  induction 1 as [| s manifests ss batches Hs _ IH]; intros batch log.
  - simpl. unfold ret, step_calls. simpl. rewrite !app_nil_r. reflexivity.
  - simpl. unfold bind. rewrite (render_step_ok _ _ _ _ Hs), IH.
    rewrite (step_calls_cons values s ss), <- !app_assoc. reflexivity.
Qed.

(** Every resource of a labeled batch carries the name of its step. *)
Lemma step_batch_labeled (s : Step) (manifests : list Resource) :
  Forall (fun r => resource_labels r !! step_label = Some (step_name s))
         (step_batch step_label s manifests).
Proof.
  unfold step_batch. induction manifests as [| r manifests IH]; simpl; constructor.
  - simpl. apply lookup_insert_eq.
  - exact IH.
Qed.

(** C7: for an ordered step list whose steps render, the final batch is the
    concatenation of the steps' batches in the declared order, followed by
    the resources of the layer customizations as the last batch; the
    Templating Engine is called once per step in that order, and every
    resource of a step's batch is labeled with that step. *)
Theorem orchestrate_installation_steps
    (st : InstallationSteps) (values : Values) (layer_resources : list Resource)
    (batches : list (list Resource)) (log : Log) :
  Forall2 (step_renders render values) (steps st) batches ->
  orchestrate render step_label (Some (VersionedApplicationSpec_InstallationSteps st))
    values layer_resources log =
  (inr (concat (zip_with (step_batch step_label) (steps st) batches) ++ layer_resources),
   log ++ step_calls values (steps st)) /\
  Forall2 (fun s batch =>
             Forall (fun r => resource_labels r !! step_label = Some (step_name s)) batch)
          (steps st) (zip_with (step_batch step_label) (steps st) batches).
Proof.
  intros Hrenders. split.
  - unfold orchestrate, bind, ret. simpl steps_of.
    rewrite (render_steps_ok _ _ _ Hrenders). reflexivity.
  - induction Hrenders as [| s manifests ss bs _ _ IH]; simpl; constructor.
    + apply step_batch_labeled.
    + exact IH.
Qed.

(** A step that fails to render is fatal: the error names the step and no
    partial batch is returned. *)
Lemma render_steps_failure (values : Values) (ss1 ss2 : list Step) (s : Step)
    (src : InstallSource) (message : string) (batches : list (list Resource))
    (batch : list Resource) (log : Log) :
  Forall2 (step_renders render values) ss1 batches ->
  step_step s = Some src ->
  render src values = inl message ->
  fst (render_steps render step_label values (ss1 ++ s :: ss2) batch log) =
  inl [TemplatingFailed (step_name s) message].
Proof.
  intros Hok Hsrc Hfail. revert batch log.
  induction Hok as [| s1 m1 ss1 bs Hs1 _ IH]; intros batch log.
  - simpl. unfold bind, render_step. rewrite Hsrc.
    unfold bind, call_engine. rewrite Hfail. reflexivity.
  - simpl. unfold bind at 1. rewrite (render_step_ok _ _ _ _ Hs1). apply IH.
Qed.

End orchestrator_facts.

Lemma orchestrate_installation_steps_witness :
  let batches := [[example.deployment "crds.tgz"]; [example.deployment "gloo.tgz"];
                  [example.deployment "jobs.tgz"]] in
  let values := {| engine.base_values := ""; engine.layer_values := [];
                   engine.parameter_values := ∅ |} in
  engine.orchestrate example.render example.step_label
    (Some (v1.VersionedApplicationSpec_InstallationSteps example.three_steps))
    values [example.settings] [] =
  (inr (concat (zip_with (engine.step_batch example.step_label)
                         (v1.steps example.three_steps) batches) ++ [example.settings])%list,
   ([] ++ engine.step_calls values (v1.steps example.three_steps))%list) /\
  Forall2 (fun s batch =>
             Forall (fun r => engine.resource_labels r !! example.step_label =
                              Some (v1.step_name s)) batch)
          (v1.steps example.three_steps)
          (zip_with (engine.step_batch example.step_label)
                    (v1.steps example.three_steps) batches).
Proof.
  apply (orchestrate_installation_steps example.render example.step_label
           example.three_steps).
  repeat constructor; eexists; split; reflexivity.
Defined.

(** ** Layer Composer *)

Section composer_facts.
Import v1 engine.
Local Open Scope list_scope.
Context {R : Runtime}.

Variable render : InstallSource -> Values -> string + list Resource.
Variable getSecret : string -> string -> option (gmap string string).
Variable layer_manifests : Layer -> LayerOption -> list Resource.
Variable step_label : string.

Lemma chosen_option_none (choices : gmap string string) (l : Layer) :
  choices !! layer_id l = None -> chosen_option choices l = None.
Proof. unfold chosen_option. intros ->. reflexivity. Qed.

(** An optional layer without selection contributes nothing. *)
Lemma compose_layer_optional (ns : string) (choices : gmap string string) (l : Layer) :
  layer_optional l = true ->
  choices !! layer_id l = None ->
  compose_layer getSecret layer_manifests ns choices l = nothing.
Proof.
  intros Hopt Hnone. unfold compose_layer.
  rewrite (chosen_option_none _ _ Hnone), Hopt. reflexivity.
Qed.

(** A non-optional layer without selection is an error of its own. *)
Lemma compose_layer_required (ns : string) (choices : gmap string string) (l : Layer) :
  layer_optional l = false ->
  choices !! layer_id l = None ->
  composed_errors (compose_layer getSecret layer_manifests ns choices l) =
  [LayerSelectionRequired (layer_id l)].
Proof.
  intros Hopt Hnone. unfold compose_layer.
  rewrite (chosen_option_none _ _ Hnone), Hopt. reflexivity.
Qed.

Lemma merge_nothing_l (c : Composition) : merge nothing c = c.
Proof. destruct c. reflexivity. Qed.

Lemma compose_layers_app (ns : string) (choices : gmap string string) (ls1 ls2 : list Layer) :
  compose_layers getSecret layer_manifests ns choices (ls1 ++ ls2) =
  merge (compose_layers getSecret layer_manifests ns choices ls1)
        (compose_layers getSecret layer_manifests ns choices ls2).
Proof.
  induction ls1 as [| l ls1 IH]; simpl.
  - rewrite merge_nothing_l. reflexivity.
  - rewrite IH. unfold merge. simpl. rewrite !app_assoc. reflexivity.
Qed.

(** The errors of every layer are accumulated. *)
Lemma compose_layers_errors (ns : string) (choices : gmap string string)
    (ls : list Layer) (l : Layer) (e : Error) :
  In l ls ->
  In e (composed_errors (compose_layer getSecret layer_manifests ns choices l)) ->
  In e (composed_errors (compose_layers getSecret layer_manifests ns choices ls)).
Proof.
  induction ls as [| l0 ls IH]; simpl; [tauto |].
  intros [-> | Hin] He; apply in_or_app; [left | right]; auto.
Qed.

(** A layer that contributes nothing can be left out of the flavor. *)
Lemma compose_layers_skip (ns : string) (choices : gmap string string)
    (before after : list Layer) (l : Layer) :
  compose_layer getSecret layer_manifests ns choices l = nothing ->
  compose_layers getSecret layer_manifests ns choices (before ++ l :: after) =
  compose_layers getSecret layer_manifests ns choices (before ++ after).
Proof.
  intros Hl. rewrite !compose_layers_app. simpl. rewrite Hl, merge_nothing_l. reflexivity.
Qed.

(** Errors of the layers stop the request before the Templating Engine is
    called. *)
Lemma resolve_flavor_errors (version : VersionedApplicationSpec) (req : Request)
    (e : Error) (log : Log) :
  In e (composed_errors
          (compose_layers getSecret layer_manifests (targetNamespace req)
             (layerChoices req) (flavor_customization_layers (flavor req)))) ->
  exists errors,
    resolve_flavor render getSecret layer_manifests step_label version req log =
    (inl errors, log) /\ In e errors.
Proof.
  intros He. unfold resolve_flavor.
  destruct (composed_errors _) as [| e0 errors]; [destruct He |].
  exists (e0 :: errors). split; [reflexivity | exact He].
Qed.

(** C8: for a layer of the selected flavor for which the caller chose no
    option: if the layer is not optional, the request fails with a
    [LayerSelectionRequired] error for it and the log of Templating Engine
    calls is left as it was (no call is made); if it is optional, the layer
    contributes nothing, so the outcome is that of the request whose flavor
    lacks the layer. *)
Theorem layer_without_selection (version : VersionedApplicationSpec) (req : Request)
    (l : Layer) (log : Log) :
  In l (flavor_customization_layers (flavor req)) ->
  layerChoices req !! layer_id l = None ->
  if layer_optional l
  then
    compose_layer getSecret layer_manifests (targetNamespace req) (layerChoices req) l
      = nothing /\
    forall (before after : list Layer) (req' : Request),
      flavor_customization_layers (flavor req) = before ++ l :: after ->
      flavor_customization_layers (flavor req') = before ++ after ->
      layerChoices req' = layerChoices req ->
      parameterOverrides req' = parameterOverrides req ->
      targetNamespace req' = targetNamespace req ->
      resolve_flavor render getSecret layer_manifests step_label version req log =
      resolve_flavor render getSecret layer_manifests step_label version req' log
  else
    exists errors,
      resolve_flavor render getSecret layer_manifests step_label version req log =
      (inl errors, log) /\
      In (LayerSelectionRequired (layer_id l)) errors.
Proof.
  intros Hin Hnone. destruct (layer_optional l) eqn:Hopt.
  - pose proof (compose_layer_optional (targetNamespace req) _ _ Hopt Hnone) as Hnothing.
    split; [exact Hnothing |].
    intros before after req' Hlayers Hlayers' Hchoices Hparams Hns.
    unfold resolve_flavor.
    rewrite Hlayers, Hlayers', Hchoices, Hparams, Hns.
    rewrite (compose_layers_skip _ _ _ _ _ Hnothing). reflexivity.
  - apply resolve_flavor_errors.
    apply (compose_layers_errors _ _ _ l); [exact Hin |].
    rewrite (compose_layer_required _ _ _ Hopt Hnone). left. reflexivity.
Qed.

End composer_facts.

Lemma layer_without_selection_witness :
  exists errors,
    engine.resolve_flavor (R := refrt.go_amd64) example.render example.getSecret
      example.layer_manifests example.step_label example.version_0_18_35
      (example.request (example.vanilla false) ∅) [] =
    (inl errors, []) /\
    In (engine.LayerSelectionRequired "custom-resources") errors.
Proof.
  apply (layer_without_selection (R := refrt.go_amd64) example.render example.getSecret
           example.layer_manifests example.step_label example.version_0_18_35
           (example.request (example.vanilla false) ∅)
           (example.custom_resources false) []).
  - simpl. left. reflexivity.
  - reflexivity.
Defined.

(** The same request with the layer optional renders the three steps, and
    with the option chosen the layer's resources come last. *)
Example optional_layer_examples :
  let run optional choices :=
    engine.resolve_flavor (R := refrt.go_amd64) example.render example.getSecret
      example.layer_manifests example.step_label example.version_0_18_35
      (example.request (example.vanilla optional) choices) [] in
  let names result :=
    match fst result with
    | inr batch => map engine.resource_name batch
    | inl _ => []
    end in
  names (run true ∅) = ["crds.tgz"; "gloo.tgz"; "jobs.tgz"] /\
  names (run true {[ "custom-resources" := "create" ]}) =
    ["crds.tgz"; "gloo.tgz"; "jobs.tgz"; "default"] /\
  length (snd (run true ∅)) = 3%nat /\
  length (snd (run false ∅)) = 0%nat.
Proof. vm_compute. repeat split. Qed.

(** Three named steps: the batch keeps the order of the steps, every resource
    carries the name of its step, and the resources of the layer come last
    without a step label. *)
Example three_steps_example :
  let result :=
    engine.resolve_flavor (R := refrt.go_amd64) example.render example.getSecret
      example.layer_manifests example.step_label example.version_0_18_35
      (example.request (example.vanilla true) {[ "custom-resources" := "create" ]}) [] in
  match fst result with
  | inr batch =>
      map (fun r => (engine.resource_name r,
                     engine.resource_labels r !! example.step_label)) batch =
      [("crds.tgz", Some "pre-install"); ("gloo.tgz", Some "core");
       ("jobs.tgz", Some "post-install"); ("default", None)]
  | inl _ => False
  end.
Proof. vm_compute. reflexivity. Qed.

(** ** ParamValueToString: what the rendering of an integer tells *)

Section int_rendering_facts.
Import strconv v1 util.
Local Open Scope Z_scope.

(** A numeral does not start with a minus sign. *)
Lemma numeral_first_not_minus (body : string) (w : Z) :
  numeral_value body = Some w ->
  exists c s', body = String c s' /\ Ascii.eqb c "-" = false.
Proof.
  destruct body as [| c s']; [discriminate |].
  unfold numeral_value. rewrite digits_value_cons. intros H.
  exists c, s'. split; [reflexivity |].
  destruct (Ascii.eqb_spec c "-") as [-> | _]; [discriminate H | reflexivity].
Qed.

(** The canonical representation reads back as the number. *)
Lemma canonical_decimal_value (v : Z) (s : string) :
  canonical_decimal v s -> decimal_value s = Some v.
Proof.
  intros (body & -> & Hvalue & _). destruct (Z.ltb_spec v 0) as [Hneg | Hpos].
  - unfold decimal_value. change (Ascii.eqb "-" "-") with true.
    rewrite Hvalue. simpl. f_equal. lia.
  - destruct (numeral_first_not_minus _ _ Hvalue) as (c & s' & -> & Hc).
    unfold decimal_value. rewrite Hc, Hvalue. f_equal. lia.
Qed.

(** The canonical representation of a number below [10 ^ n] in absolute
    value has at most [n] digits, besides the sign. *)
Lemma canonical_decimal_length (v : Z) (s : string) (n : nat) :
  Z.abs v < 10 ^ Z.of_nat n ->
  canonical_decimal v s ->
  (1 <= String.length s <= S n)%nat.
Proof.
  intros Hv (body & -> & Hvalue & Hlead).
  assert (Hbody : (1 <= String.length body <= n)%nat \/
                  (body = "0"%string /\ n = 0%nat)).
  { destruct Hlead as [-> | (c & s' & -> & Hc)].
    - destruct n; [right; auto | left; simpl; lia].
    - left. pose proof (numeral_value_magnitude _ _ _ Hc Hvalue) as [Hlow _].
      change (String.length (String c s')) with (S (String.length s')).
      split; [lia |].
      destruct (Nat.lt_ge_cases (String.length s') n) as [Hlt | Hge]; [lia | exfalso].
      assert (10 ^ Z.of_nat n <= 10 ^ Z.of_nat (String.length s'))
        by (apply Z.pow_le_mono_r; lia). lia. }
  destruct (Z.ltb_spec v 0) as [Hneg | Hpos].
  - change (String.length (String "-" body)) with (S (String.length body)).
    destruct Hbody as [Hb | [_ ->]]; [lia |].
    change (10 ^ Z.of_nat 0) with 1 in Hv. lia.
  - destruct Hbody as [Hb | [-> ->]]; [lia | simpl; lia].
Qed.

Lemma int_rendering_canonical {R : Runtime} (i : Z) :
  canonical_decimal (mach.wrap_signed IntSize i)
    (ParamValueToString (value_of (ParameterValue_IntValue i))).
Proof.
  rewrite ParamValueToString_int. apply FormatInt_canonical.
  destruct IntSize_cases as [-> | ->].
  - apply in_signed_widen, wrap_signed_range. lia.
  - apply wrap_signed_range. lia.
Qed.

Lemma int_rendering_value {R : Runtime} (i : Z) :
  decimal_value (ParamValueToString (value_of (ParameterValue_IntValue i))) =
  Some (mach.wrap_signed IntSize i).
Proof. apply canonical_decimal_value, int_rendering_canonical. Qed.

Lemma IntSize_pos {R : Runtime} : 0 < IntSize.
Proof. destruct IntSize_cases as [-> | ->]; lia. Qed.

(** The rendering of an integer reads back, as a signed decimal numeral, as
    the value converted to [int]. *)
Theorem ParamValueToString_int_reads_back {R : Runtime} (i : Z) :
  decimal_value (ParamValueToString (value_of (ParameterValue_IntValue i))) =
  Some (mach.wrap_signed IntSize i).
Proof. apply int_rendering_value. Qed.

(** Two integers are rendered alike exactly when they agree in their low
    [IntSize] bits. *)
Theorem ParamValueToString_int_eq_iff {R : Runtime} (i j : Z) :
  ParamValueToString (value_of (ParameterValue_IntValue i)) =
  ParamValueToString (value_of (ParameterValue_IntValue j)) <->
  mach.wrap_signed IntSize i = mach.wrap_signed IntSize j.
Proof.
  split.
  - intros H. pose proof (int_rendering_value i) as Hi.
    rewrite H, int_rendering_value in Hi. congruence.
  - intros H. rewrite !ParamValueToString_int, H. reflexivity.
Qed.

(** On a 32-bit target 4294967297 and 1 are rendered alike. *)
Example ParamValueToString_int_collision_32 :
  ParamValueToString (R := refrt.go_386) (value_of (ParameterValue_IntValue 4294967297)) =
  ParamValueToString (R := refrt.go_386) (value_of (ParameterValue_IntValue 1)).
Proof. vm_compute. reflexivity. Qed.

(** An integer is rendered in its own canonical base-10 representation
    exactly when it fits the target's [int]. *)
Theorem ParamValueToString_int_canonical_iff {R : Runtime} (i : Z) :
  canonical_decimal i (ParamValueToString (value_of (ParameterValue_IntValue i))) <->
  mach.in_signed IntSize i.
Proof.
  split.
  - intros H. apply canonical_decimal_value in H.
    rewrite int_rendering_value in H. injection H as H.
    rewrite <- H. apply wrap_signed_range, IntSize_pos.
  - intros Hi. pose proof (int_rendering_canonical i) as H.
    rewrite wrap_signed_id in H by (apply IntSize_pos || exact Hi). exact H.
Qed.

Lemma int_rendering_length {R : Runtime} (i : Z) :
  (1 <= String.length (ParamValueToString (value_of (ParameterValue_IntValue i)))
     <= if (IntSize =? 32)%Z then 11 else 20)%nat.
Proof.
  pose proof (int_rendering_canonical i) as Hc.
  pose proof (wrap_signed_range IntSize i IntSize_pos) as Hr.
  unfold mach.in_signed in Hr.
  destruct IntSize_cases as [E | E]; rewrite E in *; simpl Z.eqb; cbv iota.
  - apply (canonical_decimal_length (mach.wrap_signed 32 i) _ 10); [| exact Hc].
    change (2 ^ (32 - 1)) with 2147483648 in Hr.
    change (10 ^ Z.of_nat 10) with 10000000000. lia.
  - apply (canonical_decimal_length (mach.wrap_signed 64 i) _ 19); [| exact Hc].
    change (2 ^ (64 - 1)) with 9223372036854775808 in Hr.
    change (10 ^ Z.of_nat 19) with 10000000000000000000. lia.
Qed.

(** The rendering of an integer is never empty and at most 20 characters
    long, 11 where [int] is 32 bits wide. *)
Theorem ParamValueToString_int_length {R : Runtime} (i : Z) :
  (1 <= String.length (ParamValueToString (value_of (ParameterValue_IntValue i)))
     <= if (IntSize =? 32)%Z then 11 else 20)%nat.
Proof. apply int_rendering_length. Qed.

(** Both bounds are reached. *)
Example ParamValueToString_int_length_reached :
  String.length (ParamValueToString (R := refrt.go_amd64)
                   (value_of (ParameterValue_IntValue (-9223372036854775808)))) = 20%nat /\
  String.length (ParamValueToString (R := refrt.go_386)
                   (value_of (ParameterValue_IntValue (-2147483648)))) = 11%nat.
Proof. vm_compute. split; reflexivity. Qed.

(** The rendering is empty exactly for a nil value, an unset oneof, a secret,
    the empty string, and a date or float that the library renders as the
    empty string; a boolean or an integer is never rendered as the empty
    string. *)
Theorem ParamValueToString_empty_iff {R : Runtime} (value : option ParameterValue) :
  ParamValueToString value = ""%string <-> empty_rendering value.
Proof.
  unfold empty_rendering.
  destruct value as [[[t |]] |]; try (simpl; tauto).
  destruct t as [s | i | f | b | t | s]; try (simpl; tauto).
  - change (Some {| Type_ := Some (ParameterValue_IntValue i) |})
      with (value_of (ParameterValue_IntValue i)).
    pose proof (int_rendering_length i) as Hlen.
    split; [| intros []]. intros H. rewrite H in Hlen. simpl in Hlen. lia.
  - destruct b; simpl; split; (discriminate || tauto).
Qed.

End int_rendering_facts.

(** ** The test set-up *)

Section gloo_test_facts.
Import v1 gloo_test.
Context {R : Runtime}.

Lemma last_with_version_sound (k : string) (l : list VersionedApplicationSpec)
    (v : VersionedApplicationSpec) :
  last_with_version k l = Some v -> version v = k /\ v ∈ l.
Proof.
  induction l as [| v0 l IH]; simpl; [discriminate |].
  destruct (last_with_version k l) as [w |].
  - intros [= <-]. destruct (IH eq_refl) as [Hk Hin]. split; [exact Hk |].
    apply elem_of_cons. right. exact Hin.
  - destruct (String.eqb_spec (version v0) k) as [Hk | _]; [| discriminate].
    intros [= <-]. split; [exact Hk | apply elem_of_cons; left; reflexivity].
Qed.

Lemma last_with_version_none (k : string) (l : list VersionedApplicationSpec) :
  last_with_version k l = None <-> forall v, v ∈ l -> version v <> k.
Proof.
  induction l as [| v0 l IH]; simpl.
  - split; [| reflexivity]. intros _ v Hv. apply elem_of_nil in Hv. destruct Hv.
  - destruct (last_with_version k l) as [w |] eqn:E.
    + split; [discriminate |]. intros H. exfalso.
      destruct (last_with_version_sound _ _ _ E) as [Hk Hin].
      apply (H w); [apply elem_of_cons; right; exact Hin | exact Hk].
    + destruct (String.eqb_spec (version v0) k) as [Hk | Hk].
      * split; [discriminate |]. intros H. exfalso.
        apply (H v0); [apply elem_of_cons; left; reflexivity | exact Hk].
      * split; [| reflexivity]. intros _ v Hv.
        apply elem_of_cons in Hv as [-> | Hv]; [exact Hk |].
        apply IH; [reflexivity | exact Hv].
Qed.

(** The loop, started on any map: a key is bound to the last version that
    carries it, and keeps its binding when no version does. *)
Lemma versionMap_loop_lookup (l : list VersionedApplicationSpec)
    (m : gmap string VersionedApplicationSpec) (k : string) :
  foldl (fun m v => <[version v := v]> m) m l !! k =
  match last_with_version k l with
  | Some w => Some w
  | None => m !! k
  end.
Proof.
  revert m. induction l as [| v l IH]; intros m; simpl; [reflexivity |].
  rewrite IH. destruct (last_with_version k l); [reflexivity |].
  destruct (String.eqb_spec (version v) k) as [-> | Hk].
  - apply lookup_insert_eq.
  - apply lookup_insert_ne. exact Hk.
Qed.

Lemma versionMap_lookup_aux (spec : ApplicationSpec) (k : string) :
  versionMap spec !! k = last_with_version k (application_versions spec).
Proof.
  unfold versionMap. rewrite versionMap_loop_lookup.
  destruct (last_with_version k (application_versions spec)); [reflexivity |].
  apply lookup_empty.
Qed.

(** The loop adds one entry per version when the version strings are
    pairwise distinct and new to the map. *)
Lemma versionMap_loop_size (l : list VersionedApplicationSpec)
    (m : gmap string VersionedApplicationSpec) :
  NoDup (map version l) ->
  (forall v, v ∈ l -> m !! version v = None) ->
  size (foldl (fun m v => <[version v := v]> m) m l) = (size m + length l)%nat.
Proof.
  revert m. induction l as [| v l IH]; intros m Hnd Hnew; simpl; [lia |].
  apply NoDup_cons in Hnd as [Hv Hnd].
  rewrite IH; [| exact Hnd |].
  - rewrite map_size_insert_None by (apply Hnew, elem_of_cons; left; reflexivity). lia.
  - intros w Hw. rewrite lookup_insert_ne.
    + apply Hnew, elem_of_cons. right. exact Hw.
    + intros E. apply Hv. rewrite E. apply (list_elem_of_fmap_2 version), Hw.
Qed.

Lemma last_with_version_unique (l : list VersionedApplicationSpec)
    (v : VersionedApplicationSpec) :
  NoDup (map version l) -> v ∈ l -> last_with_version (version v) l = Some v.
Proof.
  induction l as [| v0 l IH]; intros Hnd Hin; [apply elem_of_nil in Hin; destruct Hin |].
  apply NoDup_cons in Hnd as [Hv0 Hnd]. simpl.
  apply elem_of_cons in Hin as [-> | Hin].
  - assert (Hnone : last_with_version (version v0) l = None).
    { apply last_with_version_none. intros w Hw E. apply Hv0. rewrite <- E.
      apply (list_elem_of_fmap_2 version), Hw. }
    rewrite Hnone, String.eqb_refl. reflexivity.
  - rewrite (IH Hnd Hin). reflexivity.
Qed.

(** Looking a version string up in [versionMap] yields the last version of
    the spec that carries it. *)
Theorem versionMap_lookup (spec : ApplicationSpec) (k : string) :
  versionMap spec !! k = last_with_version k (application_versions spec).
Proof. apply versionMap_lookup_aux. Qed.

(** A key is missing from [versionMap] exactly when no version of the spec
    carries it, and what is found under a key is a version of the spec that
    carries it. *)
Theorem versionMap_lookup_sound_complete (spec : ApplicationSpec) (k : string) :
  (versionMap spec !! k = None <->
   forall v, v ∈ application_versions spec -> version v <> k) /\
  (forall v, versionMap spec !! k = Some v ->
             version v = k /\ v ∈ application_versions spec).
Proof.
  rewrite versionMap_lookup_aux. split.
  - apply last_with_version_none.
  - intros v. apply last_with_version_sound.
Qed.

(** When the version strings of the spec are pairwise distinct, every version
    is found under its own version string and the map has one entry per
    version. *)
Theorem versionMap_unique_versions (spec : ApplicationSpec) :
  NoDup (map version (application_versions spec)) ->
  (forall v, v ∈ application_versions spec -> versionMap spec !! version v = Some v) /\
  size (versionMap spec) = length (application_versions spec).
Proof.
  intros Hnd. split.
  - intros v Hv. rewrite versionMap_lookup_aux. apply last_with_version_unique; assumption.
  - unfold versionMap. rewrite versionMap_loop_size; [rewrite map_size_empty; lia | exact Hnd |].
    intros v _. apply lookup_empty.
Qed.

End gloo_test_facts.

Lemma versionMap_unique_versions_witness :
  (forall v, v ∈ v1.application_versions (R := refrt.go_amd64) example.gloo ->
             gloo_test.versionMap example.gloo !! v1.version v = Some v) /\
  size (gloo_test.versionMap (R := refrt.go_amd64) example.gloo) =
  length (v1.application_versions (R := refrt.go_amd64) example.gloo).
Proof.
  apply (versionMap_unique_versions (R := refrt.go_amd64) example.gloo).
  simpl. apply NoDup_cons. split.
  - intros H. apply list_elem_of_singleton in H. discriminate H.
  - apply NoDup_singleton.
Defined.

(** With a version string declared twice the later declaration wins. *)
Example versionMap_duplicate_example :
  let spec : v1.ApplicationSpec (R := refrt.go_amd64) :=
    {| v1.application_type := v1.EXTENSION; v1.application_name := "gloo";
       v1.logo_url := ""; v1.short_description := ""; v1.long_description := "";
       v1.documentation_url := ""; v1.repository_url := "";
       v1.application_creator := ""; v1.application_provider := "";
       v1.application_maintainer := ""; v1.date_created := None;
       v1.application_versions :=
         [example.version_0_18_35 (R := refrt.go_amd64);
          {| v1.version := "0.18.35"; v1.date_published := None;
             v1.installation_spec := None; v1.values_yaml := "later";
             v1.required_labels := ∅; v1.flavors := [];
             v1.respect_manifest_namespaces := false; v1.parameters := [] |}] |} in
  option_map (v1.values_yaml (R := refrt.go_amd64))
    (gloo_test.versionMap (R := refrt.go_amd64) spec !! "0.18.35") = Some "later" /\
  size (gloo_test.versionMap (R := refrt.go_amd64) spec) = 1%nat /\
  gloo_test.versionMap (R := refrt.go_amd64) spec !! "0.18.36" = None.
Proof. cbv zeta. repeat split; reflexivity. Qed.
